(** * gTTS-ts: the text segmentation engine

    A shallow embedding of the TypeScript sources
    - [src/utils.ts]                   ([minimize], [cleanTokens]),
    - [src/tokenizer/core.ts]          ([RegexBuilder], [PreProcessorRegex],
                                        [PreProcessorSub], [Tokenizer]),
    - [src/tokenizer/pre_processors.ts], [src/tokenizer/tokenizer_cases.ts],
      [src/tokenizer/symbols.ts],
    - [src/tts.ts]                     ([gTTS.tokenize], [gTTS.prepareRequests],
                                        the head of [gTTS.stream]),
    together with the part of the JavaScript runtime those sources call:
    string primitives over UTF-16 code units and the star-free fragment of
    regular expressions (literals, [.], classes, alternation, look-around and
    capture groups) with [exec], [replace] and [split]. *)

From Stdlib Require Import ZArith Lia String Ascii.
From stdpp Require Import base tactics option list numbers.

Local Open Scope Z_scope.

(** ** JavaScript values used by the engine *)

(** A JavaScript string is a sequence of UTF-16 code units; [length] counts
    code units, as [String.prototype.length] does. *)
Abbreviation jsstring := (list N).

(** ASCII literals of the sources, as code-unit sequences. *)
Definition str (s : string) : jsstring :=
  List.map N_of_ascii (list_ascii_of_string s).

(** Exceptions thrown by the sources ([new Error(msg)], and [gTTSError],
    whose message is inferred from the response) and by the runtime
    ([TypeError] when a method is called on [undefined]). *)
Inductive exn :=
| Error (msg : jsstring)
| TypeError (msg : jsstring)
| gTTSError.

(** The outcome of a call: a value, a thrown exception, or no outcome within
    the recursion budget given to the model ([OutOfFuel]). *)
Inductive outcome (A : Type) :=
| Ok (a : A)
| Throw (e : exn)
| OutOfFuel.
Arguments Ok {A} a.
Arguments Throw {A} e.
Arguments OutOfFuel {A}.

#[global] Instance outcome_bind : MBind outcome := fun A B k m =>
  match m with
  | Ok a => k a
  | Throw e => Throw e
  | OutOfFuel => OutOfFuel
  end.

#[global] Instance outcome_fmap : FMap outcome := fun A B f m =>
  match m with
  | Ok a => Ok (f a)
  | Throw e => Throw e
  | OutOfFuel => OutOfFuel
  end.

(** [try { m } catch (e) { h }] *)
Definition try_catch {A} (m : outcome A) (h : exn -> outcome A) : outcome A :=
  match m with
  | Throw e => h e
  | _ => m
  end.

Module JS.

(** [ToIntegerOrInfinity] followed by the clamp to [0 .. len] that
    [substring] and [lastIndexOf] apply to their index arguments. *)
Definition clamp (len : nat) (i : Z) : nat := Nat.min (Z.to_nat i) len.

(** [s.substring(start, end)]: both indices are clamped to [0 .. s.length]
    and swapped when [start > end]. *)
Definition substring (s : jsstring) (start end_ : Z) : jsstring :=
  let a := clamp (length s) start in
  let b := clamp (length s) end_ in
  take (Nat.max a b - Nat.min a b) (drop (Nat.min a b) s).

(** [s.substring(start)]: the end defaults to [s.length]. *)
Definition substring_from (s : jsstring) (start : Z) : jsstring :=
  drop (clamp (length s) start) s.

(** [s.startsWith(search)] *)
Definition startsWith (s search : jsstring) : bool :=
  bool_decide (take (length search) s = search).

(** Does [search] occur in [s] at index [k]? *)
Definition occurs_at (s search : jsstring) (k : nat) : bool :=
  bool_decide (take (length search) (drop k s) = search).

(** The largest index [i <= k] at which [search] occurs in [s], or [-1]. *)
Fixpoint lastIndexFrom (s search : jsstring) (k : nat) : Z :=
  if occurs_at s search k then Z.of_nat k
  else match k with
       | O => -1
       | S k' => lastIndexFrom s search k'
       end.

(** [s.lastIndexOf(search, position)]: the search starts at [position]
    clamped to [0 .. s.length] and walks towards index 0. *)
Definition lastIndexOf (s search : jsstring) (position : Z) : Z :=
  lastIndexFrom s search (clamp (length s) position).

(** [WhiteSpace] and [LineTerminator] code units: what [trim] strips and
    what [\s] matches. *)
Definition isWhiteSpace (c : N) : bool :=
  (List.existsb (N.eqb c)
     [9; 10; 11; 12; 13; 32; 160; 5760; 8232; 8233; 8239; 8287; 12288; 65279]
   || ((8192 <=? c) && (c <=? 8202)))%N.

Fixpoint trimStart (s : jsstring) : jsstring :=
  match s with
  | c :: s' => if isWhiteSpace c then trimStart s' else s
  | [] => []
  end.

Definition trimEnd (s : jsstring) : jsstring := rev (trimStart (rev s)).

(** [s.trim()] *)
Definition trim (s : jsstring) : jsstring := trimEnd (trimStart s).

(** An array element as the runtime sees it: a string or [undefined]
    ([None]).  TypeScript's [string[]] does not exclude the latter. *)
Abbreviation element := (option jsstring).

(** [a.join(sep)] with the empty separator: [undefined] elements
    contribute the empty string. *)
Definition join (a : list element) : jsstring :=
  concat (List.map (default []) a).

End JS.

(** ** Regular expressions of the runtime

    The patterns built by the sources use literals, [.], the classes [[a-z]]
    and [\d], alternation, look-behind, look-ahead and capture groups, and
    no quantifier.  [RegExp] objects are modelled by their syntax tree and
    flags, and matching by the backtracking semantics of the language
    specification: the matcher returns every way to match, in priority
    order, and [exec] takes the first. *)

Module Regex.

Inductive regex :=
| Empty                                  (** the empty pattern *)
| Char (c : N)                           (** a literal code unit, escaped or not *)
| Dot                                    (** [.] *)
| Class (ranges : list (N * N))          (** [[a-z]]; [\d] is [[0-9]] *)
| Seq (r1 r2 : regex)                    (** [r1r2] *)
| Alt (r1 r2 : regex)                    (** [r1|r2] *)
| Look (behind negative : bool) (r : regex)
    (** [(?=r)], [(?!r)], [(?<=r)], [(?<!r)] *)
| Group (r : regex).                     (** [(r)] *)

(** The flags [i] and [g]; [split] adds the sticky flag on its own copy. *)
Record flags := { ignoreCase : bool; global : bool }.

Record RegExp := { source : regex; reflags : flags }.

(** A literal string inside a pattern: what [escapeRegExp] makes of it. *)
Fixpoint lit (s : jsstring) : regex :=
  match s with
  | [] => Empty
  | [c] => Char c
  | c :: s' => Seq (Char c) (lit s')
  end.

(** [alts.join("|")] *)
Fixpoint alternation (alts : list regex) : regex :=
  match alts with
  | [] => Empty
  | [a] => a
  | a :: rest => Alt a (alternation rest)
  end.

(** Number of capture groups of a pattern (left parentheses, in order). *)
Fixpoint ngroups (r : regex) : nat :=
  match r with
  | Seq r1 r2 | Alt r1 r2 => (ngroups r1 + ngroups r2)%nat
  | Look _ _ r => ngroups r
  | Group r => S (ngroups r)
  | _ => O
  end.

Definition isLineTerminator (c : N) : bool :=
  List.existsb (N.eqb c) [10; 13; 8232; 8233]%N.

Definition toLowerASCII (c : N) : N :=
  (if (65 <=? c) && (c <=? 90) then c + 32 else c)%N.
Definition toUpperASCII (c : N) : N :=
  (if (97 <=? c) && (c <=? 122) then c - 32 else c)%N.

(** [Canonicalize] without the [u] flag maps a code unit to its upper case,
    except that a code unit above 127 is never mapped into ASCII.  The model
    folds ASCII letters only; this is exact for every pattern of the
    sources, whose literals outside ASCII are punctuation marks without
    case. *)
Definition canonicalize (icase : bool) (c : N) : N :=
  if icase then toUpperASCII c else c.

Definition in_ranges (ranges : list (N * N)) (c : N) : bool :=
  List.existsb (fun '(lo, hi) => (lo <=? c) && (c <=? hi))%N ranges.

(** Class membership: some member of the class has the canonical form of
    the input code unit. *)
Definition class_matches (icase : bool) (ranges : list (N * N)) (c : N) : bool :=
  if icase
  then in_ranges ranges c || in_ranges ranges (toLowerASCII c)
       || in_ranges ranges (toUpperASCII c)
  else in_ranges ranges c.

(** Captures 1..n of a match; [None] is [undefined]. *)
Abbreviation captures := (list (option jsstring)).

(** A matcher state: the end index and the captures so far. *)
Abbreviation mstate := (nat * captures)%type.

Section Matcher.
Variable icase : bool.
Variable input : jsstring.

(** Consume one code unit satisfying [ok], forward or (inside a
    look-behind) backward. *)
Definition step (fwd : bool) (ok : N -> bool) (st : mstate) : list mstate :=
  let '(p, c) := st in
  if fwd then
    match input !! p with
    | Some ch => if ok ch then [(S p, c)] else []
    | None => []
    end
  else
    match p with
    | O => []
    | S p' =>
      match input !! p' with
      | Some ch => if ok ch then [(p', c)] else []
      | None => []
      end
    end.

(** [matches r k fwd st]: the states reached by matching [r] from [st], in
    the order the backtracking matcher tries them.  [k] is the number of
    capture groups opened to the left of [r]. *)
Fixpoint matches (r : regex) (k : nat) (fwd : bool) (st : mstate) : list mstate :=
  match r with
  | Empty => [st]
  | Char c =>
    step fwd (fun ch => N.eqb (canonicalize icase ch) (canonicalize icase c)) st
  | Dot => step fwd (fun ch => negb (isLineTerminator ch)) st
  | Class ranges => step fwd (class_matches icase ranges) st
  | Seq r1 r2 =>
    if fwd
    then st1 ← matches r1 k fwd st; matches r2 (k + ngroups r1) fwd st1
    else st2 ← matches r2 (k + ngroups r1) fwd st; matches r1 k fwd st2
  | Alt r1 r2 =>
    matches r1 k fwd st ++ matches r2 (k + ngroups r1) fwd st
  | Look behind negative r =>
    match matches r k (negb behind) st with
    | [] => if negative then [st] else []
    | (_, c) :: _ => if negative then [] else [(st.1, c)]
    end
  | Group r =>
    '(p, c) ← matches r (S k) fwd st;
    [(p, <[k := Some (take (Nat.max st.1 p - Nat.min st.1 p)
                          (drop (Nat.min st.1 p) input))]> c)]
  end.

End Matcher.

(** One attempt of the matcher at index [q] (a sticky [exec] with
    [lastIndex = q]): the end index of the match and its captures. *)
Definition exec_at (rx : RegExp) (input : jsstring) (q : nat) : option mstate :=
  head (matches (ignoreCase (reflags rx)) input (source rx) 0 true
          (q, replicate (ngroups (source rx)) None)).

(** [exec] without the sticky flag and with [lastIndex = i]: the first
    index [i, i+1, ..] (at most [k] of them) where the matcher succeeds. *)
Fixpoint search (rx : RegExp) (input : jsstring) (k i : nat)
  : option (nat * mstate) :=
  match k with
  | O => None
  | S k' =>
    match exec_at rx input i with
    | Some m => Some (i, m)
    | None => search rx input k' (S i)
    end
  end.

(** [exec] from [lastIndex]: indices up to [input.length] included. *)
Definition exec_from (rx : RegExp) (input : jsstring) (lastIndex : nat)
  : option (nat * mstate) :=
  search rx input (S (length input) - lastIndex) lastIndex.

(** The loop of [RegExp.prototype[Symbol.replace]] for a global pattern and
    a replacement without [$] patterns: each match found from [lastIndex]
    appends the text since the previous match and the replacement; an empty
    match advances [lastIndex] by one.  [lastIndex] grows at every turn, so
    [length input + 2] turns exhaust the input. *)
Fixpoint replace_loop (n : nat) (rx : RegExp) (input repl : jsstring)
    (lastIndex nextSourcePosition : nat) (accumulated : jsstring) : jsstring :=
  match n with
  | O => accumulated ++ drop nextSourcePosition input
  | S n' =>
    match exec_from rx input lastIndex with
    | None => accumulated ++ drop nextSourcePosition input
    | Some (position, (e, _)) =>
      let lastIndex' := if (e =? position)%nat then S e else e in
      if (nextSourcePosition <=? position)%nat
      then replace_loop n' rx input repl lastIndex' e
             (accumulated
                ++ take (position - nextSourcePosition) (drop nextSourcePosition input)
                ++ repl)
      else replace_loop n' rx input repl lastIndex' nextSourcePosition accumulated
    end
  end.

(** [input.replace(rx, repl)] *)
Definition replace (rx : RegExp) (input repl : jsstring) : jsstring :=
  if global (reflags rx)
  then replace_loop (length input + 2) rx input repl 0 0 []
  else match exec_from rx input 0 with
       | None => input
       | Some (position, (e, _)) => take position input ++ repl ++ drop e input
       end.

(** The loop of [RegExp.prototype[Symbol.split]]: [p] is the start of the
    pending piece, [q] the index tried next.  A match at [q] ending at
    [e <> p] closes the piece [input[p..q)], appends every capture of the
    match, [undefined] ones included, and continues from [e].  Each turn
    increases [q] or moves [p] up to [q], so [2 * length input + 1] turns
    reach the end of the input. *)
Fixpoint split_loop (n : nat) (rx : RegExp) (input : jsstring) (p q : nat)
  : list JS.element :=
  match n with
  | O => [Some (drop p input)]
  | S n' =>
    if (q <? length input)%nat then
      match exec_at rx input q with
      | None => split_loop n' rx input p (S q)
      | Some (e, caps) =>
        let e := Nat.min e (length input) in
        if (e =? p)%nat then split_loop n' rx input p (S q)
        else Some (take (q - p) (drop p input)) :: caps
               ++ split_loop n' rx input e e
      end
    else [Some (drop p input)]
  end.

(** The turns [split] still needs from the state [(p, q)]. *)
Definition split_turns (input : jsstring) (p q : nat) : nat :=
  if (q <? length input)%nat
  then (2 * (length input - q) + (if (p <? q)%nat then 1 else 0))%nat
  else O.

(** [input.split(rx)], without a limit. *)
Definition split (rx : RegExp) (input : jsstring) : list JS.element :=
  match input with
  | [] => match exec_at rx input 0 with
          | Some _ => []
          | None => [Some input]
          end
  | _ => split_loop (2 * length input + 1) rx input 0 0
  end.

(** Does every match of the pattern consume at least one code unit? *)
Fixpoint consumes (r : regex) : bool :=
  match r with
  | Char _ | Dot | Class _ => true
  | Seq r1 r2 => consumes r1 || consumes r2
  | Alt r1 r2 => consumes r1 && consumes r2
  | Group r => consumes r
  | Empty | Look _ _ _ => false
  end.

(** The text with [repl] put in front of every index at which [P] holds,
    the end of the text included; [i] is the index of the head of [l]. *)
Fixpoint weave (P : nat -> bool) (repl : jsstring) (i : nat) (l : jsstring)
  : jsstring :=
  (if P i then repl else [])
  ++ match l with
     | [] => []
     | c :: l' => c :: weave P repl (S i) l'
     end.

End Regex.

(** ** [src/tokenizer/symbols.ts] *)

Module Symbols.

(** ["dr", "jr", "mr", "mrs", "ms", "msgr", "prof", "sr", "st"] *)
Definition ABBREVIATIONS : list jsstring :=
  List.map str ["dr"; "jr"; "mr"; "mrs"; "ms"; "msgr"; "prof"; "sr"; "st"]%string.

(** [[["Esq.", "Esquire"]]] *)
Definition SUB_PAIRS : list (jsstring * jsstring) :=
  [(str "Esq.", str "Esquire")].

(** ["?!？！.,¡()[]¿…‥،;:—。，、：\n"], code unit by code unit:
    [?] [!] U+FF1F U+FF01 [.] [,] U+00A1 [(] [)] [[] []] U+00BF U+2026 U+2025
    U+060C [;] [:] U+2014 U+3002 U+FF0C U+3001 U+FF1A and the line feed. *)
Definition ALL_PUNC : jsstring :=
  [63; 33; 65311; 65281; 46; 44; 161; 40; 41; 91; 93; 191; 8230; 8229;
   1548; 59; 58; 8212; 12290; 65292; 12289; 65306; 10]%N.

(** ["?!？！"] *)
Definition TONE_MARKS : jsstring := [63; 33; 65311; 65281]%N.

(** [".,"] *)
Definition PERIOD_COMMA : jsstring := [46; 44]%N.

(** [":"] *)
Definition COLON : jsstring := [58]%N.

End Symbols.

(** ** [src/tokenizer/core.ts] *)

Module Core.
Import Regex.

(** [s.split(sep)] with the empty separator: the code units of [s], each
    as a string. *)
Definition chars (s : jsstring) : list jsstring := List.map (fun c => [c]) s.

Definition noflags : flags := {| ignoreCase := false; global := false |}.
Definition flag_i : flags := {| ignoreCase := true; global := false |}.

(** [new RegexBuilder(patternArgs, patternFunc, flags).regex]: every
    argument is escaped, passed to the template, and the alternatives are
    joined by ["|"].  The template receives the escaped argument as the
    pattern [lit arg] that matches it literally. *)
Definition RegexBuilder (patternArgs : list jsstring)
    (patternFunc : regex -> regex) (fl : flags) : RegExp :=
  {| source := alternation (List.map (fun arg => patternFunc (lit arg)) patternArgs);
     reflags := fl |}.

(** [new PreProcessorRegex(searchArgs, searchFunc, repl, flags)]: one
    pattern per argument, and the common replacement. *)
Record PreProcessorRegex := {
  regexes : list RegExp;
  repl : jsstring
}.

Definition newPreProcessorRegex (searchArgs : list jsstring)
    (searchFunc : regex -> regex) (repl : jsstring) (fl : flags)
  : PreProcessorRegex :=
  {| regexes := List.map (fun arg => RegexBuilder [arg] searchFunc fl) searchArgs;
     repl := repl |}.

(** [PreProcessorRegex.run]: each pattern in turn, recompiled with the [g]
    flag, replaces its matches in the text left by the previous one. *)
Definition PreProcessorRegex_run (pp : PreProcessorRegex) (text : jsstring)
  : jsstring :=
  fold_left
    (fun text rx =>
       let globalRegex :=
         {| source := source rx;
            reflags := {| ignoreCase := ignoreCase (reflags rx); global := true |} |} in
       replace globalRegex text (repl pp))
    (regexes pp) text.

(** [new PreProcessorSub(subPairs, ignoreCase = true)] *)
Definition newPreProcessorSub (subPairs : list (jsstring * jsstring))
    (ignoreCase : bool) : list PreProcessorRegex :=
  let searchFunc := fun x : regex => x in
  let fl := if ignoreCase then flag_i else noflags in
  List.map (fun '(pattern, repl) => newPreProcessorRegex [pattern] searchFunc repl fl)
    subPairs.

(** [PreProcessorSub.run] *)
Definition PreProcessorSub_run (preProcessors : list PreProcessorRegex)
    (text : jsstring) : jsstring :=
  fold_left (fun text pp => PreProcessorRegex_run pp text) preProcessors text.

(** [new Tokenizer(regexFuncs, flags = "i")]: [combineRegex] wraps the
    source of every case in a capture group of its own and joins the groups
    by ["|"]. *)
Definition combineRegex (regexFuncs : list RegExp) (fl : flags) : RegExp :=
  {| source := alternation (List.map (fun alt => Group (source alt)) regexFuncs);
     reflags := fl |}.

(** [Tokenizer.run]: [text.split(this.totalRegex)] *)
Definition Tokenizer_run (totalRegex : RegExp) (text : jsstring)
  : list JS.element :=
  split totalRegex text.

End Core.

(** ** [src/tokenizer/pre_processors.ts] *)

Module PreProcessors.
Import Regex Core.

(** [(x) => `(?<=${x})`], replaced by [" "] *)
Definition toneMarks (text : jsstring) : jsstring :=
  PreProcessorRegex_run
    (newPreProcessorRegex (chars Symbols.TONE_MARKS)
       (fun x => Look true false x) (str " ") noflags)
    text.

(** [(x) => `${x}\\n`] on ["-"], replaced by the empty string *)
Definition endOfLine (text : jsstring) : jsstring :=
  PreProcessorRegex_run
    (newPreProcessorRegex [str "-"]
       (fun x => Seq x (Char 10)) [] noflags)
    text.

(** [(x) => `(?<=${x})(?=\\.).`] with the flag [i], replaced by the empty
    string *)
Definition abbreviations (text : jsstring) : jsstring :=
  PreProcessorRegex_run
    (newPreProcessorRegex Symbols.ABBREVIATIONS
       (fun x => Seq (Look true false x) (Seq (Look false false (Char 46)) Dot))
       [] flag_i)
    text.

Definition wordSub (text : jsstring) : jsstring :=
  PreProcessorSub_run (newPreProcessorSub Symbols.SUB_PAIRS true) text.

(** The pattern [(?<=x)] for a code unit [x], compiled with the flag [g]. *)
Definition after_mark (x : N) : RegExp :=
  {| source := Look true false (Char x);
     reflags := {| ignoreCase := false; global := true |} |}.

(** Is the code unit before index [i] equal to [x]? *)
Definition preceded (x : N) (input : jsstring) (i : nat) : bool :=
  match i with
  | O => false
  | S i' => match input !! i' with
            | Some ch => N.eqb ch x
            | None => false
            end
  end.

(** The text with [repl] put after every code unit [x]. *)
Definition insert_after (x : N) (repl text : jsstring) : jsstring :=
  List.flat_map (fun c => if N.eqb c x then c :: repl else [c]) text.

End PreProcessors.

(** ** [src/tokenizer/tokenizer_cases.ts] *)

Module TokenizerCases.
Import Regex Core.

(** [(x) => `(?<=${x}).`] *)
Definition toneMarks : RegExp :=
  RegexBuilder (chars Symbols.TONE_MARKS)
    (fun x => Seq (Look true false x) Dot) noflags.

(** [(x) => `(?<!\\.[a-z])${x} `] *)
Definition periodComma : RegExp :=
  RegexBuilder (chars Symbols.PERIOD_COMMA)
    (fun x => Seq (Look true true (Seq (Char 46) (Class [(97, 122)]%N)))
                (Seq x (Char 32)))
    noflags.

(** [(x) => `(?<!\\d)${x}`] *)
Definition colon : RegExp :=
  RegexBuilder (chars Symbols.COLON)
    (fun x => Seq (Look true true (Class [(48, 57)]%N)) x) noflags.

(** [new Set(...)] of the code units of [s]: in insertion order, each
    once. *)
Definition newSet (s : jsstring) : jsstring :=
  fold_left (fun set x => if List.existsb (N.eqb x) set then set else set ++ [x]) s [].

(** The punctuation of [ALL_PUNC] that no other case claims, in the
    insertion order of the set; [(x) => `${x}`]. *)
Definition otherPunctuation : RegExp :=
  let has (set : jsstring) (x : N) := List.existsb (N.eqb x) set in
  let punc :=
    List.filter
      (fun x => negb (has Symbols.TONE_MARKS x)
                && negb (has Symbols.PERIOD_COMMA x)
                && negb (has Symbols.COLON x))
      (newSet Symbols.ALL_PUNC) in
  RegexBuilder (chars punc) (fun x => x) noflags.

End TokenizerCases.

(** ** [src/utils.ts]: the chunk minimizer *)

Module Utils.

(** The first statement of [minimize]: one leading [delim] is removed. *)
Definition strip_delim (theString delim : jsstring) : jsstring :=
  if JS.startsWith theString delim
  then JS.substring_from theString (Z.of_nat (length delim))
  else theString.

(** [minimize(theString, delim, maxSize)].  The recursion of the source is
    on a string that need not get shorter when [maxSize <= 0], so the model
    carries a recursion budget; [minimize_terminates] shows that the budget
    used by [minimize] below is always enough when [maxSize] is positive. *)
Fixpoint minimize_fuel (fuel : nat) (theString delim : jsstring) (maxSize : Z)
  : outcome (list jsstring) :=
  match fuel with
  | O => OutOfFuel
  | S fuel' =>
    let theString := strip_delim theString delim in
    if Z.of_nat (length theString) >? maxSize then
      idx ← try_catch
               (let idx := JS.lastIndexOf theString delim maxSize in
                if idx =? -1 then Throw (Error (str "Value not found")) else Ok idx)
               (fun _ => Ok maxSize);
      rest ← minimize_fuel fuel' (JS.substring_from theString idx) delim maxSize;
      Ok (JS.substring theString 0 idx :: rest)
    else Ok [theString]
  end.

(** The index at which [minimize] cuts a string longer than [maxSize]. *)
Definition cut_index (theString delim : jsstring) (maxSize : Z) : Z :=
  let idx := JS.lastIndexOf theString delim maxSize in
  if idx =? -1 then maxSize else idx.

Definition minimize (theString delim : jsstring) (maxSize : Z)
  : outcome (list jsstring) :=
  minimize_fuel (S (length theString)) theString delim maxSize.


(** [_ALL_PUNC_OR_SPACE.test(t)] for the pattern [^[<ALL_PUNC>\s]*$]: every
    code unit of [t] is a punctuation mark of [ALL_PUNC] or white space. *)
Definition ALL_PUNC_OR_SPACE_test (t : jsstring) : bool :=
  List.forallb
    (fun c => List.existsb (N.eqb c) Symbols.ALL_PUNC || JS.isWhiteSpace c) t.

(** [tokens.map(t => t.trim())]: calling [trim] on [undefined] throws. *)
Fixpoint map_trim (tokens : list JS.element) : outcome (list jsstring) :=
  match tokens with
  | [] => Ok []
  | Some t :: rest => ts ← map_trim rest; Ok (JS.trim t :: ts)
  | None :: _ =>
    Throw (TypeError (str "undefined is not an object (evaluating 't.trim')"))
  end.

(** [t => t]: a string is truthy when it is not empty. *)
Definition truthy (t : jsstring) : bool :=
  match t with [] => false | _ => true end.

(** [cleanTokens(tokens)] *)
Definition cleanTokens (tokens : list JS.element) : outcome (list jsstring) :=
  ts ← map_trim tokens;
  Ok (List.filter (fun t => truthy t && negb (ALL_PUNC_OR_SPACE_test t)) ts).

(** [translateUrl(tld, path)] *)
Definition translateUrl (tld path : jsstring) : jsstring :=
  str "https://translate.google." ++ tld ++ str "/" ++ path.

End Utils.


(** ** [src/tts.ts] *)

Module TTS.

(** [gTTS.GOOGLE_TTS_MAX_CHARS] *)
Definition GOOGLE_TTS_MAX_CHARS : Z := 100.

(** The fields of a [gTTS] instance read by [tokenize], [prepareRequests]
    and [packageRpc]. *)
Record gTTS := {
  text : jsstring;
  tld : jsstring;
  lang : jsstring;
  speed : bool;
  preProcessorFuncs : list (jsstring -> jsstring);
  tokenizerFunc : jsstring -> list JS.element
}.

(** The default [preProcessorFuncs] of the constructor. *)
Definition defaultPreProcessorFuncs : list (jsstring -> jsstring) :=
  [PreProcessors.toneMarks; PreProcessors.endOfLine;
   PreProcessors.abbreviations; PreProcessors.wordSub].

(** The [Tokenizer] the constructor builds when no [tokenizerFunc] is given. *)
Definition defaultTokenizer : Regex.RegExp :=
  Core.combineRegex
    [TokenizerCases.toneMarks; TokenizerCases.periodComma;
     TokenizerCases.colon; TokenizerCases.otherPunctuation]
    Core.flag_i.

Definition defaultTokenizerFunc (t : jsstring) : list JS.element :=
  Core.Tokenizer_run defaultTokenizer t.

(** The options of the constructor; [None] is an omitted option. *)
Record gTTSOptions := {
  opt_text : jsstring;
  opt_tld : option jsstring;
  opt_lang : option jsstring;
  opt_slow : option bool;
  opt_langCheck : option bool;
  opt_preProcessorFuncs : option (list (jsstring -> jsstring));
  opt_tokenizerFunc : option (jsstring -> list JS.element)
}.

Section Instance.

(** [fallbackDeprecatedLang] and the keys of [ttsLangs()] ([src/lang.ts]);
    the table [mainLangs] they rest on is not part of the sources at hand. *)
Variable fallbackDeprecatedLang : jsstring -> jsstring.
Variable ttsLangs : list jsstring.

(** [new gTTS(options)] *)
Definition new_gTTS (o : gTTSOptions) : outcome gTTS :=
  if negb (Utils.truthy (opt_text o)) then Throw (Error (str "No text to speak"))
  else
    let lang := default (str "en") (opt_lang o) in
    lang' ← (if default true (opt_langCheck o) then
               let l := fallbackDeprecatedLang lang in
               if bool_decide (l ∈ ttsLangs) then Ok l
               else Throw (Error (str "Language not supported: " ++ lang))
             else Ok lang);
    Ok {| text := opt_text o;
          tld := default (str "com") (opt_tld o);
          lang := lang';
          speed := default false (opt_slow o);
          preProcessorFuncs :=
            default defaultPreProcessorFuncs (opt_preProcessorFuncs o);
          tokenizerFunc := default defaultTokenizerFunc (opt_tokenizerFunc o) |}.

End Instance.

(** The instance [new gTTS({ text, langCheck: false })]. *)
Definition default_gTTS (text : jsstring) : gTTS :=
  {| text := text; tld := str "com"; lang := str "en"; speed := false;
     preProcessorFuncs := defaultPreProcessorFuncs;
     tokenizerFunc := defaultTokenizerFunc |}.

(** The head of [gTTS.tokenize]: the text is trimmed, then every
    pre-processor is applied in turn. *)
Definition preprocess (this : gTTS) (text : jsstring) : jsstring :=
  let text := JS.trim text in
  fold_left (fun text pp => pp text) (preProcessorFuncs this) text.

(** The loop of [tokenize] over the cleaned tokens: the chunks of each
    token are pushed onto [minTokens] in order. *)
Definition minimize_each (cleanedTokens : list jsstring) : outcome (list jsstring) :=
  foldr
    (fun t acc =>
       ts ← Utils.minimize t (str " ") GOOGLE_TTS_MAX_CHARS;
       rest ← acc;
       Ok (ts ++ rest))
    (Ok []) cleanedTokens.

(** [gTTS.tokenize(text)] *)
Definition tokenize (this : gTTS) (text : jsstring) : outcome (list jsstring) :=
  let text := preprocess this text in
  if Z.of_nat (length text) <=? GOOGLE_TTS_MAX_CHARS then
    Utils.cleanTokens [Some text]
  else
    let tokens := tokenizerFunc this text in
    cleanedTokens ← Utils.cleanTokens tokens;
    minTokens ← minimize_each cleanedTokens;
    Ok (List.filter Utils.truthy minTokens).

Record request := { url : jsstring; body : jsstring }.

Section Requests.

(** [packageRpc]'s serialisation of [[text, lang, speed, "null"]]
    ([JSON.stringify] and [encodeURIComponent]), left abstract. *)
Variable packageRpc : gTTS -> jsstring -> jsstring.

(** [gTTS.prepareRequests()] *)
Definition prepareRequests (this : gTTS) : outcome (list request) :=
  let url :=
    Utils.translateUrl (tld this) (str "_/TranslateWebserverUi/data/batchexecute") in
  textParts ← tokenize this (text this);
  if (length textParts =? 0)%nat then Throw (Error (str "No text to send to TTS API"))
  else Ok (List.map (fun part => {| url := url; body := packageRpc this part |})
             textParts).

(** Whether the backend's response to a request is [ok]. *)
Variable response_ok : request -> bool.

(** The [fetch] calls of the loop of [gTTS.stream()], in the order they are
    issued, and how the loop ends: a response that is not [ok] throws a
    [gTTSError].  The audio yielded in between is not modelled. *)
Fixpoint fetch_each (requests : list request) (issued : list request)
  : list request * outcome unit :=
  match requests with
  | [] => (issued, Ok tt)
  | req :: rest =>
    let issued := issued ++ [req] in
    if response_ok req then fetch_each rest issued
    else (issued, Throw gTTSError)
  end.

(** [gTTS.stream()]: [prepareRequests] runs first, outside the [try]; the
    result pairs the requests issued to the backend with the outcome. *)
Definition stream (this : gTTS) : list request * outcome unit :=
  match prepareRequests this with
  | Ok requests => fetch_each requests []
  | Throw e => ([], Throw e)
  | OutOfFuel => ([], OutOfFuel)
  end.

End Requests.

(** The sources of the four cases, without their group. *)
Definition default_cases : list Regex.regex :=
  List.map Regex.source
    [TokenizerCases.toneMarks; TokenizerCases.periodComma;
     TokenizerCases.colon; TokenizerCases.otherPunctuation].

(** Sample texts: a hundred times ["a"], a hundred times ["b"]. *)
Definition a100 : jsstring := replicate 100 97%N.
Definition b100 : jsstring := replicate 100 98%N.

End TTS.

(** ** Reference functions for the statements about patterns *)

Module RegexSpec.
Import Regex.

(** Does every match of [r] go through a literal of [cs] (outside negative
    look-around)? *)
Fixpoint requires_any (cs : list N) (r : regex) : bool :=
  match r with
  | Char c => List.existsb (N.eqb c) cs
  | Seq r1 r2 => requires_any cs r1 || requires_any cs r2
  | Alt r1 r2 => requires_any cs r1 && requires_any cs r2
  | Look _ false r => requires_any cs r
  | Group r => requires_any cs r
  | _ => false
  end.

(** Is [c] an ASCII letter? *)
Definition isLetter (c : N) : bool :=
  ((65 <=? c) && (c <=? 90) || (97 <=? c) && (c <=? 122))%N.

(** The text [l], whose head has index [i], with every stretch of [w] code
    units that starts at an index satisfying [P] replaced by [repl],
    scanning from the left; [skip] code units are still to be dropped from
    the stretch being replaced. *)
Fixpoint substitute (P : nat -> bool) (w : nat) (repl : jsstring)
    (i skip : nat) (l : jsstring) : jsstring :=
  match l with
  | [] => []
  | c :: l' =>
    match skip with
    | S k => substitute P w repl (S i) k l'
    | O => if P i then repl ++ substitute P w repl (S i) (w - 1) l'
           else c :: substitute P w repl (S i) 0 l'
    end
  end.

(** Is there a match of [rx] at index [i] of [input]? *)
Definition matches_at (rx : RegExp) (input : jsstring) (i : nat) : bool :=
  match exec_at rx input i with Some _ => true | None => false end.


(** The text without its hyphen-newline pairs, scanning from the left. *)
Fixpoint remove_hyphen_newline (l : jsstring) : jsstring :=
  match l with
  | [] => []
  | c :: t =>
    match t with
    | d :: t' => if (c =? 45)%N && (d =? 10)%N then remove_hyphen_newline t'
                 else c :: remove_hyphen_newline t
    | [] => [c]
    end
  end.

End RegexSpec.

(** ** [src/lang.ts] *)

Module Lang.

(** The table [deprecated] of [fallbackDeprecatedLang]: each fallback tag
    with the deprecated tags it stands in for, in the order of the object
    literal. *)
Definition deprecated : list (jsstring * list jsstring) :=
  [(str "en",
    List.map str ["en-us"; "en-ca"; "en-uk"; "en-gb"; "en-au"; "en-gh"; "en-in";
                  "en-ie"; "en-nz"; "en-ng"; "en-ph"; "en-za"; "en-tz"]%string);
   (str "fr", [str "fr-fr"]);
   (str "pt", [str "pt-br"; str "pt-pt"]);
   (str "es", [str "es-es"; str "es-us"]);
   (str "zh-CN", [str "zh-cn"]);
   (str "zh-TW", [str "zh-tw"])].

Section Runtime.

(** [String.prototype.toLowerCase] of the runtime.  Its Unicode tables are
    not modelled; statements that depend on it assume what it does on
    ASCII strings. *)
Variable toLowerCase : jsstring -> jsstring.

(** [fallbackDeprecatedLang(lang)]: the first fallback whose list includes
    the lower-cased tag, else the tag as it is.  The warning printed on
    the way is not modelled. *)
Definition fallbackDeprecatedLang (lang : jsstring) : jsstring :=
  match List.find
          (fun '(_, deprecatedLangs) =>
             List.existsb (fun d => bool_decide (d = toLowerCase lang))
               deprecatedLangs)
          deprecated with
  | Some (fallbackLang, _) => fallbackLang
  | None => lang
  end.

End Runtime.

(** What [toLowerCase] does on a string of ASCII code units. *)
Definition lowerASCII (s : jsstring) : jsstring := List.map Regex.toLowerASCII s.

Definition isASCII (s : jsstring) : bool := List.forallb (fun c => c <? 128)%N s.

End Lang.

(** ** [gTTS.packageRpc] and the runtime functions it calls *)

Module Rpc.

Definition isLeadingSurrogate (c : N) : bool := ((55296 <=? c) && (c <=? 56319))%N.
Definition isTrailingSurrogate (c : N) : bool := ((56320 <=? c) && (c <=? 57343))%N.

(** [String.prototype.isWellFormed]: no surrogate without its partner. *)
Fixpoint isWellFormed (s : jsstring) : bool :=
  match s with
  | [] => true
  | c :: rest =>
    if isLeadingSurrogate c then
      match rest with
      | d :: rest' => isTrailingSurrogate d && isWellFormed rest'
      | [] => false
      end
    else negb (isTrailingSurrogate c) && isWellFormed rest
  end.

(** The hexadecimal digit of [d < 16], in upper or lower case. *)
Definition hexDigit (upper : bool) (d : N) : N :=
  (if d <? 10 then 48 + d else (if upper then 55 else 87) + d)%N.

(** [UnicodeEscape]: a backslash, [u] and four lower-case digits. *)
Definition UnicodeEscape (c : N) : jsstring :=
  [92; 117; hexDigit false (c / 4096 mod 16); hexDigit false (c / 256 mod 16);
   hexDigit false (c / 16 mod 16); hexDigit false (c mod 16)]%N.

(** One code unit that is no surrogate, as [QuoteJSONString] writes it. *)
Definition quoteUnit (c : N) : jsstring :=
  if (c =? 8)%N then str "\b"
  else if (c =? 9)%N then str "\t"
  else if (c =? 10)%N then str "\n"
  else if (c =? 12)%N then str "\f"
  else if (c =? 13)%N then str "\r"
  else if (c =? 34)%N then [92; 34]%N
  else if (c =? 92)%N then [92; 92]%N
  else if (c <? 32)%N then UnicodeEscape c
  else [c].

(** The loop of [QuoteJSONString] over the code points of the string: a
    surrogate pair is copied, a surrogate on its own is escaped. *)
Fixpoint quoteBody (s : jsstring) : jsstring :=
  match s with
  | [] => []
  | c :: rest =>
    if isLeadingSurrogate c then
      match rest with
      | d :: rest' =>
        if isTrailingSurrogate d then c :: d :: quoteBody rest'
        else UnicodeEscape c ++ quoteBody rest
      | [] => UnicodeEscape c
      end
    else if isTrailingSurrogate c then UnicodeEscape c ++ quoteBody rest
    else quoteUnit c ++ quoteBody rest
  end.

(** [JSON.stringify] of a string. *)
Definition QuoteJSONString (value : jsstring) : jsstring :=
  [34%N] ++ quoteBody value ++ [34%N].

(** The values [packageRpc] serialises. *)
#[warnings="-register-all"] Inductive json :=
| JNull
| JBool (b : bool)
| JString (s : jsstring)
| JArray (elements : list json).

(** [JSON.stringify(value)] without indentation. *)
Fixpoint stringify (value : json) : jsstring :=
  match value with
  | JNull => str "null"
  | JBool b => if b then str "true" else str "false"
  | JString s => QuoteJSONString s
  | JArray elements =>
    str "["
    ++ (fix commas (l : list json) : jsstring :=
          match l with
          | [] => []
          | [v] => stringify v
          | v :: l' => stringify v ++ str "," ++ commas l'
          end) elements
    ++ str "]"
  end.

(** The characters [encodeURIComponent] leaves as they are. *)
Definition uriUnescaped (c : N) : bool :=
  ((65 <=? c) && (c <=? 90) || (97 <=? c) && (c <=? 122)
   || (48 <=? c) && (c <=? 57))%N
  || List.existsb (N.eqb c) (str "_-.!~*'()").

(** The octets of the UTF-8 encoding of a code point. *)
Definition utf8 (cp : N) : list N :=
  (if cp <? 128 then [cp]
   else if cp <? 2048 then [192 + cp / 64; 128 + cp mod 64]
   else if cp <? 65536 then
     [224 + cp / 4096; 128 + cp / 64 mod 64; 128 + cp mod 64]
   else [240 + cp / 262144; 128 + cp / 4096 mod 64; 128 + cp / 64 mod 64;
         128 + cp mod 64])%N.

(** [%XX], upper case. *)
Definition percent (octet : N) : jsstring :=
  [37%N; hexDigit true (octet / 16); hexDigit true (octet mod 16)].

Definition escapeCodePoint (cp : N) : jsstring := List.flat_map percent (utf8 cp).

(** The code point of a surrogate pair. *)
Definition pairCodePoint (lead trail : N) : N :=
  ((lead - 55296) * 1024 + (trail - 56320) + 65536)%N.

(** [encodeURIComponent(s)]; [None] is the [URIError] it throws at a
    surrogate without its partner. *)
Fixpoint encodeURIComponent (s : jsstring) : option jsstring :=
  match s with
  | [] => Some []
  | c :: rest =>
    if uriUnescaped c then r ← encodeURIComponent rest; Some (c :: r)
    else if isLeadingSurrogate c then
      match rest with
      | d :: rest' =>
        if isTrailingSurrogate d then
          r ← encodeURIComponent rest';
          Some (escapeCodePoint (pairCodePoint c d) ++ r)
        else None
      | [] => None
      end
    else if isTrailingSurrogate c then None
    else r ← encodeURIComponent rest; Some (escapeCodePoint c ++ r)
  end.

(** [gTTS.GOOGLE_TTS_RPC] *)
Definition GOOGLE_TTS_RPC : jsstring := str "jQ1olc".

(** The string [escapedRpc] of [packageRpc]. *)
Definition escapedRpc (this : TTS.gTTS) (text : jsstring) : jsstring :=
  let parameter :=
    JArray [JString text; JString (TTS.lang this); JBool (TTS.speed this);
            JString (str "null")] in
  let escapedParameter := stringify parameter in
  let rpc :=
    JArray [JArray [JArray [JString GOOGLE_TTS_RPC; JString escapedParameter;
                            JNull; JString (str "generic")]]] in
  stringify rpc.

(** [gTTS.packageRpc(text)]; [None] stands for a [URIError]. *)
Definition packageRpc (this : TTS.gTTS) (text : jsstring) : option jsstring :=
  r ← encodeURIComponent (escapedRpc this text);
  Some (str "f.req=" ++ r ++ str "&").

(** A string of 16-bit code units. *)
Definition codeUnits (s : jsstring) : Prop := Forall (fun c => c < 65536)%N s.

(** A string without surrogates. *)
Definition plain (s : jsstring) : Prop := Forall (fun c => c < 55296)%N s.

(** What a percent-encoded string is made of: the characters that
    [encodeURIComponent] does not escape, and the percent sign. *)
Definition urlSafe (c : N) : Prop := uriUnescaped c = true \/ c = 37%N.

End Rpc.

(** ** Where the default tokenizer matches *)

Module TokenizerSpec.
Import Regex.

(** Does the code unit at index [q] of [input] satisfy [ok]? *)
Definition at_index (input : jsstring) (q : nat) (ok : N -> bool) : bool :=
  match input !! q with Some ch => ok ch | None => false end.

(** Does the code unit just before index [q] satisfy [ok]? *)
Definition before (input : jsstring) (q : nat) (ok : N -> bool) : bool :=
  match q with O => false | S p => at_index input p ok end.

(** Does [ch] match the literal [c] of a pattern? *)
Definition same (icase : bool) (c ch : N) : bool :=
  N.eqb (canonicalize icase ch) (canonicalize icase c).

Definition member (cs : jsstring) (c : N) : bool := List.existsb (N.eqb c) cs.

Definition isDigit (c : N) : bool := ((48 <=? c) && (c <=? 57))%N.

(** The punctuation of [ALL_PUNC] that is no tone mark, period, comma or
    colon. *)
Definition OTHER_PUNC : jsstring :=
  List.filter
    (fun c => negb (member (Symbols.TONE_MARKS ++ Symbols.PERIOD_COMMA
                            ++ Symbols.COLON) c))
    Symbols.ALL_PUNC.

(** Index [q] comes right after a tone mark and holds a code unit that is
    no line terminator. *)
Definition toneMarks_site (input : jsstring) (q : nat) : bool :=
  before input q (member Symbols.TONE_MARKS)
  && at_index input q (fun ch => negb (isLineTerminator ch)).

(** A period and an ASCII letter come right before index [q]. *)
Definition dotted (input : jsstring) (q : nat) : bool :=
  match q with
  | S (S p) => at_index input p (fun ch => ch =? 46)%N
               && at_index input (S p) RegexSpec.isLetter
  | _ => false
  end.

(** Index [q] holds a period or a comma, a space follows, and no dotted
    letter precedes. *)
Definition periodComma_site (input : jsstring) (q : nat) : bool :=
  negb (dotted input q)
  && at_index input q (member Symbols.PERIOD_COMMA)
  && at_index input (S q) (fun ch => ch =? 32)%N.

(** Index [q] holds a colon that does not follow a digit. *)
Definition colon_site (input : jsstring) (q : nat) : bool :=
  negb (before input q isDigit) && at_index input q (fun ch => ch =? 58)%N.

(** Index [q] holds one of the other punctuation marks. *)
Definition otherPunctuation_site (input : jsstring) (q : nat) : bool :=
  at_index input q (member OTHER_PUNC).

(** The captures of a match from [q] to [e] by case [i] of four. *)
Definition capture_of (input : jsstring) (i q e : nat) : captures :=
  <[i := Some (take (e - q) (drop q input))]> (replicate 4 None).

(** The match of the combined pattern at index [q], case by case in the
    order of the alternation. *)
Definition exec_spec (input : jsstring) (q : nat) : option mstate :=
  if toneMarks_site input q then Some (S q, capture_of input 0 q (S q))
  else if periodComma_site input q then
    Some (S (S q), capture_of input 1 q (S (S q)))
  else if colon_site input q then Some (S q, capture_of input 2 q (S q))
  else if otherPunctuation_site input q then
    Some (S q, capture_of input 3 q (S q))
  else None.

End TokenizerSpec.

(** * Properties *)

(** ** String primitives *)

Section JSFacts.
Import JS.

Lemma clamp_le len i : (clamp len i <= len)%nat.
Proof. unfold clamp. lia. Qed.

Lemma clamp_of_nat len (n : nat) : clamp len (Z.of_nat n) = Nat.min n len.
Proof. unfold clamp. by rewrite Nat2Z.id. Qed.

Lemma clamp_nonpos len i : i <= 0 -> clamp len i = O.
Proof. unfold clamp. intros. replace (Z.to_nat i) with O by lia. done. Qed.

Lemma clamp_small len i : 0 <= i <= Z.of_nat len -> clamp len i = Z.to_nat i.
Proof. unfold clamp. lia. Qed.

Lemma substring_0 (s : jsstring) i :
  substring s 0 i = take (clamp (length s) i) s.
Proof.
  unfold substring. rewrite (clamp_nonpos _ 0) by lia.
  by rewrite Nat.max_0_l, Nat.min_0_l, Nat.sub_0_r, drop_0.
Qed.

Lemma length_substring_0 (s : jsstring) i :
  0 <= i -> Z.of_nat (length (substring s 0 i)) <= i.
Proof.
  intros. rewrite substring_0, length_take. unfold clamp. lia.
Qed.

Lemma length_substring_from (s : jsstring) i :
  length (substring_from s i) = (length s - clamp (length s) i)%nat.
Proof. unfold substring_from. by rewrite length_drop. Qed.

Lemma occurs_at_nil (s : jsstring) k : occurs_at s [] k = true.
Proof. unfold occurs_at. by rewrite bool_decide_eq_true. Qed.

Lemma occurs_at_0 (s d : jsstring) : occurs_at s d 0 = startsWith s d.
Proof. unfold occurs_at, startsWith. by rewrite drop_0. Qed.

(** [lastIndexOf] answers [-1] or an index between 0 and the start of the
    search at which the string searched for occurs. *)
Lemma lastIndexFrom_spec (s d : jsstring) k :
  lastIndexFrom s d k = -1
  \/ (0 <= lastIndexFrom s d k <= Z.of_nat k
      /\ occurs_at s d (Z.to_nat (lastIndexFrom s d k)) = true).
Proof.
  induction k as [|k IH]; simpl.
  - destruct (occurs_at s d 0) eqn:E; [right|left; done].
    split; [lia|]. done.
  - destruct (occurs_at s d (S k)) eqn:E.
    + right. split; [lia|]. by rewrite Nat2Z.id.
    + destruct IH as [IH|[IH1 IH2]]; [by left|right]. split; [lia|done].
Qed.

Lemma lastIndexFrom_nil (s : jsstring) k : lastIndexFrom s [] k = Z.of_nat k.
Proof. destruct k; cbn [lastIndexFrom]; by rewrite occurs_at_nil. Qed.

Lemma trimStart_length (s : jsstring) : (length (trimStart s) <= length s)%nat.
Proof. induction s as [|c s IH]; simpl; [done|]. destruct (isWhiteSpace c); simpl; lia. Qed.

Lemma trim_length (s : jsstring) : (length (trim s) <= length s)%nat.
Proof.
  unfold trim, trimEnd. rewrite length_rev.
  etrans; [apply trimStart_length|]. rewrite length_rev. apply trimStart_length.
Qed.

End JSFacts.

(** ** The minimizer *)

Section MinimizeFacts.
Import JS Utils.

Lemma strip_delim_length (s d : jsstring) :
  (length (strip_delim s d) <= length s)%nat.
Proof.
  unfold strip_delim. destruct (startsWith s d); [|done].
  rewrite length_substring_from. lia.
Qed.

Lemma strip_delim_no_prefix (s d : jsstring) :
  startsWith s d = false -> strip_delim s d = s.
Proof. unfold strip_delim. by intros ->. Qed.

(** A string that starts with a non-empty delimiter gets shorter. *)
Lemma strip_delim_shorter (s d : jsstring) :
  startsWith s d = true -> d <> [] ->
  (length (strip_delim s d) < length s)%nat.
Proof.
  unfold strip_delim. intros Hs Hd. rewrite Hs, length_substring_from.
  rewrite clamp_of_nat. unfold startsWith in Hs.
  apply bool_decide_eq_true in Hs.
  assert (length d <= length s)%nat.
  { rewrite <- Hs at 1. rewrite length_take. lia. }
  destruct d; [done|]. cbn [length] in *. lia.
Qed.

Lemma minimize_fuel_unfold fuel (s d : jsstring) m :
  minimize_fuel (S fuel) s d m =
  let s' := strip_delim s d in
  if Z.of_nat (length s') >? m then
    rest ← minimize_fuel fuel (substring_from s' (cut_index s' d m)) d m;
    Ok (substring s' 0 (cut_index s' d m) :: rest)
  else Ok [s'].
Proof.
  simpl. unfold cut_index.
  destruct (_ >? m); [|done].
  by destruct (lastIndexOf _ d m =? -1).
Qed.

Lemma cut_index_range (s d : jsstring) m :
  0 < m -> m < Z.of_nat (length s) -> 0 <= cut_index s d m <= m.
Proof.
  intros Hm Hlen. unfold cut_index, lastIndexOf.
  rewrite clamp_small by lia.
  destruct (lastIndexFrom_spec s d (Z.to_nat m)) as [->|[H _]];
    [change (-1 =? -1) with true; cbv iota; lia|].
  destruct (Z.eqb_spec (lastIndexFrom s d (Z.to_nat m)) (-1)); lia.
Qed.

(** A cut at index 0 happens only at a leading, non-empty delimiter. *)
Lemma cut_index_0 (s d : jsstring) m :
  0 < m -> m < Z.of_nat (length s) -> cut_index s d m = 0 ->
  startsWith s d = true /\ d <> [].
Proof.
  intros Hm Hlen. unfold cut_index, lastIndexOf.
  rewrite clamp_small by lia.
  destruct (lastIndexFrom_spec s d (Z.to_nat m)) as [->|[H Ho]];
    [change (-1 =? -1) with true; cbv iota; lia|].
  destruct (Z.eqb_spec (lastIndexFrom s d (Z.to_nat m)) (-1)); [lia|].
  intros H0. rewrite H0 in Ho. simpl in Ho.
  rewrite occurs_at_0 in Ho. split; [done|]. intros ->.
  rewrite lastIndexFrom_nil in H0. lia.
Qed.

(** With a positive [maxSize] the string handed to the recursive call has a
    strictly smaller measure: its length once the leading delimiter is
    removed.  A budget above that measure therefore yields a result, and
    every chunk of the result respects [maxSize]. *)
Lemma minimize_fuel_ok fuel : forall (s d : jsstring) m,
  0 < m -> (length (strip_delim s d) < fuel)%nat ->
  exists l, minimize_fuel fuel s d m = Ok l
            /\ Forall (fun c => Z.of_nat (length c) <= m) l.
Proof.
  induction fuel as [|fuel IH]; intros s d m Hm Hf; [lia|].
  rewrite minimize_fuel_unfold. cbv zeta.
  set (s' := strip_delim s d) in *.
  destruct (Z.of_nat (length s') >? m) eqn:E.
  - apply Z.gtb_lt in E.
    pose proof (cut_index_range s' d m Hm E) as Hr.
    destruct (IH (substring_from s' (cut_index s' d m)) d m Hm) as (l & -> & Hl).
    + destruct (decide (cut_index s' d m = 0)) as [H0|H0].
      * destruct (cut_index_0 s' d m Hm E H0) as [Hp Hd].
        rewrite H0. unfold substring_from. rewrite clamp_nonpos, drop_0 by lia.
        pose proof (strip_delim_shorter s' d Hp Hd). lia.
      * pose proof (strip_delim_length (substring_from s' (cut_index s' d m)) d).
        rewrite length_substring_from, clamp_small in H by lia. lia.
    + eexists. split; [done|]. constructor; [|done].
      pose proof (length_substring_0 s' (cut_index s' d m)). lia.
  - eexists. split; [done|]. constructor; [|done].
    rewrite Z.gtb_ltb in E. apply Z.ltb_ge in E. lia.
Qed.

(** The result does not depend on the budget once it is large enough. *)
Lemma minimize_fuel_mono fuel : forall fuel' (s d : jsstring) m l,
  (fuel <= fuel')%nat ->
  minimize_fuel fuel s d m = Ok l -> minimize_fuel fuel' s d m = Ok l.
Proof.
  induction fuel as [|fuel IH]; intros fuel' s d m l Hle; [done|].
  destruct fuel' as [|fuel']; [lia|].
  rewrite !minimize_fuel_unfold. cbv zeta.
  destruct (_ >? m); [|done].
  destruct (minimize_fuel fuel _ d m) as [rest| |] eqn:E; simpl; try done.
  intros [= <-]. by rewrite (IH fuel' _ _ _ rest) by (done || lia).
Qed.

End MinimizeFacts.

Section MinimizeClaims.
Import JS Utils.






(** C4.  For every string, every delimiter and every positive [maxSize],
    [minimize] returns a list after at most [length theString + 1] calls
    of itself: the budget [minimize] runs with, and every larger one, give
    the same list.  This covers strings made of the delimiter only and
    strings without any delimiter. *)
Theorem minimize_terminates (theString delim : jsstring) (maxSize : Z) :
  0 < maxSize ->
  exists l, minimize theString delim maxSize = Ok l
            /\ forall fuel, (length theString < fuel)%nat ->
                 minimize_fuel fuel theString delim maxSize = Ok l.
Proof.
  intros Hm.
  destruct (minimize_fuel_ok (S (length theString)) theString delim maxSize Hm)
    as (l & Hl & _).
  { pose proof (strip_delim_length theString delim). lia. }
  exists l. split; [done|]. intros fuel Hf.
  eapply minimize_fuel_mono; [|exact Hl]. lia.
Qed.

Lemma minimize_terminates_witness :
  exists l, minimize (str "      ") (str " ") 2 = Ok l
            /\ forall fuel, (length (str "      ") < fuel)%nat ->
                 minimize_fuel fuel (str "      ") (str " ") 2 = Ok l.
Proof. apply (minimize_terminates (str "      ") (str " ") 2). lia. Defined.

(** C8, as the code has it.  A token no longer than a positive [maxSize]
    comes back as the sole result with one leading delimiter removed; it
    comes back unchanged when it does not start with the delimiter. *)
Theorem minimize_short_token (t delim : jsstring) (maxSize : Z) :
  0 < maxSize -> Z.of_nat (length t) <= maxSize ->
  minimize t delim maxSize = Ok [strip_delim t delim]
  /\ (startsWith t delim = false -> minimize t delim maxSize = Ok [t]).
Proof.
  intros Hm Hlen. unfold minimize. rewrite minimize_fuel_unfold. cbv zeta.
  pose proof (strip_delim_length t delim).
  destruct (Z.gtb_spec (Z.of_nat (length (strip_delim t delim))) maxSize); [lia|].
  split; [done|]. intros Hs. by rewrite strip_delim_no_prefix.
Qed.

Lemma minimize_short_token_witness :
  minimize (str "ab") (str " ") 100 = Ok [strip_delim (str "ab") (str " ")]
  /\ (startsWith (str "ab") (str " ") = false ->
      minimize (str "ab") (str " ") 100 = Ok [str "ab"]).
Proof. apply (minimize_short_token (str "ab") (str " ") 100); simpl; lia. Defined.

(** C8 fails as stated: a short token that starts with the delimiter
    loses it. *)
Lemma minimize_short_token_strips :
  Z.of_nat (length (str " a")) <= 100
  /\ minimize (str " a") (str " ") 100 = Ok [str "a"]
  /\ str "a" <> str " a".
Proof. split; [simpl; lia|]. split; [reflexivity|discriminate]. Qed.




End MinimizeClaims.

(** ** The token cleaner *)

Section CleanFacts.
Import JS Utils.

Lemma Forall_List_filter {A} (P : A -> Prop) (f : A -> bool) (l : list A) :
  Forall P l -> Forall P (List.filter f l).
Proof.
  induction 1 as [|x l Hx Hl IH]; simpl; [done|].
  destruct (f x); [by constructor|done].
Qed.

Lemma Forall_List_filter_true {A} (f : A -> bool) (l : list A) :
  Forall (fun x => f x = true) (List.filter f l).
Proof.
  induction l as [|x l IH]; simpl; [done|].
  destruct (f x) eqn:E; [by constructor|done].
Qed.

(** [map_trim] returns the trimmed strings, or throws a [TypeError] at the
    first [undefined] element. *)
Lemma map_trim_cases (tokens : list element) :
  (exists ts, tokens = List.map Some ts /\ map_trim tokens = Ok (List.map trim ts))
  \/ (In None tokens /\ exists msg, map_trim tokens = Throw (TypeError msg)).
Proof.
  induction tokens as [|[t|] tokens IH]; simpl.
  - left. by exists [].
  - destruct IH as [(ts & -> & ->)|(Hin & msg & ->)].
    + left. by exists (t :: ts).
    + right. split; [by right|]. by exists msg.
  - right. split; [by left|]. by eexists.
Qed.

Lemma cleanTokens_cases (tokens : list element) :
  (exists ts, tokens = List.map Some ts
     /\ cleanTokens tokens =
        Ok (List.filter (fun t => truthy t && negb (ALL_PUNC_OR_SPACE_test t))
              (List.map trim ts)))
  \/ (In None tokens /\ exists msg, cleanTokens tokens = Throw (TypeError msg)).
Proof.
  unfold cleanTokens.
  destruct (map_trim_cases tokens) as [(ts & -> & ->)|(Hin & msg & ->)].
  - left. by exists ts.
  - right. split; [done|]. by exists msg.
Qed.

(** Every string kept by [cleanTokens] is trimmed input, not empty, and not
    made of punctuation and white space only. *)
Lemma cleanTokens_kept (tokens : list element) (ts : list jsstring) :
  cleanTokens tokens = Ok ts ->
  Forall (fun t => truthy t && negb (ALL_PUNC_OR_SPACE_test t) = true) ts.
Proof.
  destruct (cleanTokens_cases tokens) as [(ts' & -> & ->)|(_ & msg & ->)]; [|done].
  intros [= <-]. apply Forall_List_filter_true.
Qed.

Lemma cleanTokens_single_length (t : jsstring) (ts : list jsstring) :
  cleanTokens [Some t] = Ok ts ->
  Forall (fun c => (length c <= length t)%nat) ts.
Proof.
  unfold cleanTokens. simpl. intros [= <-].
  destruct (_ && _); constructor; [apply trim_length|done].
Qed.

End CleanFacts.

(** ** The segmentation engine *)

Section EngineFacts.
Import JS Utils TTS.

Lemma minimize_each_ok (cleanedTokens : list jsstring) :
  exists l, minimize_each cleanedTokens = Ok l
            /\ Forall (fun c => Z.of_nat (length c) <= GOOGLE_TTS_MAX_CHARS) l.
Proof.
  induction cleanedTokens as [|t ts (l & IH & Hl)]; simpl.
  - by exists [].
  - destruct (minimize_fuel_ok (S (length t)) t (str " ") GOOGLE_TTS_MAX_CHARS)
      as (l1 & H1 & Hl1); [done| |].
    { pose proof (strip_delim_length t (str " ")). lia. }
    exists (l1 ++ l). unfold minimize at 1. rewrite H1. simpl.
    fold (minimize_each ts). rewrite IH. simpl.
    split; [done|]. by apply Forall_app.
Qed.

Lemma tokenize_unfold (this : gTTS) (text : jsstring) :
  tokenize this text =
  if Z.of_nat (length (preprocess this text)) <=? GOOGLE_TTS_MAX_CHARS
  then cleanTokens [Some (preprocess this text)]
  else
    cleanedTokens ← cleanTokens (tokenizerFunc this (preprocess this text));
    minTokens ← minimize_each cleanedTokens;
    Ok (List.filter truthy minTokens).
Proof. reflexivity. Qed.

(** [tokenize] returns a list or throws the [TypeError] of [cleanTokens];
    it always comes to an end. *)
Lemma tokenize_cases (this : gTTS) (text : jsstring) :
  (exists chunks, tokenize this text = Ok chunks)
  \/ (exists msg, tokenize this text = Throw (TypeError msg)).
Proof.
  rewrite tokenize_unfold. destruct (_ <=? _).
  - destruct (cleanTokens_cases [Some (preprocess this text)])
      as [(ts & _ & ->)|(_ & msg & ->)]; [left|right]; by eexists.
  - destruct (cleanTokens_cases (tokenizerFunc this (preprocess this text)))
      as [(ts & _ & ->)|(_ & msg & ->)]; [left|right; by eexists].
    simpl. destruct (minimize_each_ok
      (List.filter (fun t => truthy t && negb (ALL_PUNC_OR_SPACE_test t))
         (List.map trim ts))) as (l & -> & _).
    by eexists.
Qed.

Lemma tokenize_bounded (this : gTTS) (text : jsstring) (chunks : list jsstring) :
  tokenize this text = Ok chunks ->
  Forall (fun c => Z.of_nat (length c) <= GOOGLE_TTS_MAX_CHARS) chunks.
Proof.
  rewrite tokenize_unfold.
  destruct (Z.leb_spec (Z.of_nat (length (preprocess this text))) GOOGLE_TTS_MAX_CHARS)
    as [Hle|Hgt].
  - intros H. apply cleanTokens_single_length in H.
    eapply List.Forall_impl; [|exact H]. simpl. intros c Hc. lia.
  - destruct (cleanTokens _) as [cleaned| |]; simpl; try done.
    destruct (minimize_each_ok cleaned) as (l & -> & Hl). simpl.
    intros [= <-]. by apply Forall_List_filter.
Qed.

Lemma tokenize_nonempty (this : gTTS) (text : jsstring) (chunks : list jsstring) :
  tokenize this text = Ok chunks -> Forall (fun c => c <> []) chunks.
Proof.
  rewrite tokenize_unfold. destruct (_ <=? _).
  - intros H. apply cleanTokens_kept in H.
    eapply List.Forall_impl; [|exact H]. simpl. by intros [|] ?.
  - destruct (cleanTokens _) as [cleaned| |]; simpl; try done.
    destruct (minimize_each cleaned) as [l| |]; simpl; try done.
    intros [= <-].
    eapply List.Forall_impl; [|apply (Forall_List_filter_true truthy)].
    simpl. by intros [|] ?.
Qed.

End EngineFacts.

Section EngineClaims.
Import JS Utils TTS.

(** C1.  Every string of the list [minimize] returns for a positive
    [maxSize] is at most [maxSize] code units long, and [minimize] does
    return; consequently every chunk of the list [tokenize] returns is at
    most [GOOGLE_TTS_MAX_CHARS = 100] code units long, whatever the
    pre-processors and the tokenizer function of the instance. *)
Theorem size_invariant (this : gTTS) (text : jsstring) (chunks : list jsstring)
    (theString delim : jsstring) (maxSize : Z) :
  0 < maxSize ->
  tokenize this text = Ok chunks ->
  (exists l, minimize theString delim maxSize = Ok l
             /\ Forall (fun c => Z.of_nat (length c) <= maxSize) l)
  /\ Forall (fun c => Z.of_nat (length c) <= 100) chunks.
Proof.
  intros Hm Htok. split.
  - apply minimize_fuel_ok; [done|].
    pose proof (strip_delim_length theString delim). lia.
  - by apply tokenize_bounded in Htok.
Qed.

Lemma size_invariant_witness :
  (exists l, minimize (str "one two three") (str " ") 5 = Ok l
             /\ Forall (fun c => Z.of_nat (length c) <= 5) l)
  /\ Forall (fun c => Z.of_nat (length c) <= 100) [a100; b100].
Proof.
  apply (size_invariant (default_gTTS (a100 ++ str " " ++ b100))
           (a100 ++ str " " ++ b100) [a100; b100] (str "one two three") (str " ") 5).
  - lia.
  - vm_compute. reflexivity.
Defined.

(** C3, as the code has it.  No chunk of the list [tokenize] returns is
    empty.  On the short path (pre-processed text of at most 100 code
    units) the list is the cleaned one-element list: it is empty or holds
    the trimmed text, which is then not made of punctuation and white space
    only.  On the long path the flattened results of [minimize] are
    filtered for empty strings only. *)
Theorem tokenize_chunks_not_empty (this : gTTS) (text : jsstring)
    (chunks : list jsstring) :
  tokenize this text = Ok chunks ->
  Forall (fun c => c <> []) chunks
  /\ (Z.of_nat (length (preprocess this text)) <= GOOGLE_TTS_MAX_CHARS ->
      (chunks = [] \/ chunks = [trim (preprocess this text)])
      /\ Forall (fun c => ALL_PUNC_OR_SPACE_test c = false) chunks)
  /\ (GOOGLE_TTS_MAX_CHARS < Z.of_nat (length (preprocess this text)) ->
      exists cleanedTokens minTokens,
        cleanTokens (tokenizerFunc this (preprocess this text)) = Ok cleanedTokens
        /\ minimize_each cleanedTokens = Ok minTokens
        /\ chunks = List.filter truthy minTokens).
Proof.
  intros Htok. split; [exact (tokenize_nonempty this text chunks Htok)|].
  rewrite tokenize_unfold in Htok.
  destruct (Z.leb_spec (Z.of_nat (length (preprocess this text))) GOOGLE_TTS_MAX_CHARS)
    as [Hle|Hgt].
  - split; [|lia]. intros _. split.
    + unfold cleanTokens in Htok. simpl in Htok.
      destruct (_ && _); injection Htok as <-; [by right|by left].
    + apply cleanTokens_kept in Htok.
      eapply List.Forall_impl; [|exact Htok]. simpl. intros c Hc.
      apply andb_true_iff in Hc as [_ Hc]. by apply negb_true_iff.
  - split; [lia|]. intros _.
    destruct (cleanTokens _) as [cleaned| |]; simpl in Htok; try done.
    destruct (minimize_each cleaned) as [l| |] eqn:E; simpl in Htok; try done.
    injection Htok as <-. by exists cleaned, l.
Qed.

Lemma tokenize_chunks_not_empty_witness :
  Forall (fun c => c <> []) [a100; b100]
  /\ (Z.of_nat (length (preprocess (default_gTTS []) (a100 ++ str " " ++ b100)))
        <= GOOGLE_TTS_MAX_CHARS ->
      ([a100; b100] = []
       \/ [a100; b100] = [trim (preprocess (default_gTTS []) (a100 ++ str " " ++ b100))])
      /\ Forall (fun c => ALL_PUNC_OR_SPACE_test c = false) [a100; b100])
  /\ (GOOGLE_TTS_MAX_CHARS
        < Z.of_nat (length (preprocess (default_gTTS []) (a100 ++ str " " ++ b100))) ->
      exists cleanedTokens minTokens,
        cleanTokens (tokenizerFunc (default_gTTS [])
                       (preprocess (default_gTTS []) (a100 ++ str " " ++ b100)))
          = Ok cleanedTokens
        /\ minimize_each cleanedTokens = Ok minTokens
        /\ [a100; b100] = List.filter truthy minTokens).
Proof.
  apply (tokenize_chunks_not_empty (default_gTTS []) (a100 ++ str " " ++ b100)).
  vm_compute. reflexivity.
Defined.

(** C3 fails as stated: the default engine returns the chunk ["."], made
    of punctuation only, for a hundred times ["a"] followed by [" ."], and
    the chunk [" "] for three spaces between two long words. *)
Lemma tokenize_returns_punctuation_chunk :
  tokenize (default_gTTS []) (a100 ++ str " .") = Ok [a100; str "."]
  /\ ALL_PUNC_OR_SPACE_test (str ".") = true
  /\ tokenize (default_gTTS []) (a100 ++ str "   " ++ b100)
     = Ok [a100; str " "; b100]
  /\ ALL_PUNC_OR_SPACE_test (str " ") = true.
Proof. repeat split; vm_compute; reflexivity. Qed.

(** C10.  [prepareRequests] throws [Error("No text to send to TTS API")]
    exactly when [tokenize] returned the empty list; and whenever
    [prepareRequests] throws, [stream] ends with that exception without
    having issued any request. *)
Theorem prepareRequests_empty_input (packageRpc : gTTS -> jsstring -> jsstring)
    (response_ok : request -> bool) (this : gTTS) :
  (prepareRequests packageRpc this = Throw (Error (str "No text to send to TTS API"))
   <-> tokenize this (text this) = Ok [])
  /\ (forall e, prepareRequests packageRpc this = Throw e ->
        stream packageRpc response_ok this = ([], Throw e)).
Proof.
  split.
  - unfold prepareRequests.
    destruct (tokenize_cases this (text this)) as [(chunks & ->)|(msg & ->)]; simpl.
    + destruct chunks as [|c chunks]; simpl; [done|]. split; intros; done.
    + split; intros; done.
  - intros e He. unfold stream. by rewrite He.
Qed.

(** An instance whose text is punctuation and white space only: the empty
    chunk list, the exception, and no request issued. *)
Lemma prepareRequests_empty_input_example (packageRpc : gTTS -> jsstring -> jsstring)
    (response_ok : request -> bool) :
  tokenize (default_gTTS (str " ?!... ")) (str " ?!... ") = Ok []
  /\ prepareRequests packageRpc (default_gTTS (str " ?!... "))
     = Throw (Error (str "No text to send to TTS API"))
  /\ stream packageRpc response_ok (default_gTTS (str " ?!... "))
     = ([], Throw (Error (str "No text to send to TTS API"))).
Proof.
  assert (tokenize (default_gTTS (str " ?!... ")) (str " ?!... ") = Ok []) as H
    by (vm_compute; reflexivity).
  split; [done|].
  assert (prepareRequests packageRpc (default_gTTS (str " ?!... "))
          = Throw (Error (str "No text to send to TTS API"))) as H'.
  { unfold prepareRequests. cbn [text default_gTTS]. by rewrite H. }
  split; [done|]. unfold stream. by rewrite H'.
Qed.

End EngineClaims.

(** ** The matcher *)

Section MatcherFacts.
Import Regex.
Variable icase : bool.
Variable input : jsstring.

Lemma step_elem fwd ok (st st' : mstate) :
  st' ∈ step input fwd ok st ->
  st'.2 = st.2
  /\ if fwd then st'.1 = S st.1 /\ (st.1 < length input)%nat
     else st.1 = S st'.1.
Proof.
  destruct st as [p c]. unfold step. destruct fwd.
  - destruct (input !! p) as [ch|] eqn:E; [|by intros ?%elem_of_nil].
    destruct (ok ch); [|by intros ?%elem_of_nil].
    intros ->%list_elem_of_singleton. simpl.
    apply lookup_lt_Some in E. done.
  - destruct p as [|p]; [by intros ?%elem_of_nil|].
    destruct (input !! p) as [ch|]; [|by intros ?%elem_of_nil].
    destruct (ok ch); [|by intros ?%elem_of_nil].
    by intros ->%list_elem_of_singleton.
Qed.

(** Matching forward never moves left nor past the end of the input;
    matching backward never moves right. *)
Lemma matches_range r : forall k fwd (st st' : mstate),
  st' ∈ matches icase input r k fwd st ->
  if fwd then (st.1 <= st'.1)%nat /\ ((st.1 <= length input)%nat -> (st'.1 <= length input)%nat)
  else (st'.1 <= st.1)%nat.
Proof.
  induction r as [|c| |rs|r1 IH1 r2 IH2|r1 IH1 r2 IH2|behind negative r IH|r IH];
    intros k fwd st st'; cbn [matches].
  - intros ->%list_elem_of_singleton. destruct fwd; lia.
  - intros [_ H]%step_elem. destruct fwd; lia.
  - intros [_ H]%step_elem. destruct fwd; lia.
  - intros [_ H]%step_elem. destruct fwd; lia.
  - destruct fwd.
    + intros (st1 & H2 & H1)%list_elem_of_bind.
      apply IH1 in H1. apply IH2 in H2. lia.
    + intros (st2 & H1 & H2)%list_elem_of_bind.
      apply IH1 in H1. apply IH2 in H2. lia.
  - intros [H|H]%elem_of_app; [by apply IH1 in H|by apply IH2 in H].
  - destruct (matches icase input r k (negb behind) st) as [|[p c] l];
      destruct negative; try (by intros ?%elem_of_nil);
      intros ->%list_elem_of_singleton; destruct fwd; simpl; lia.
  - intros ([p c] & ->%list_elem_of_singleton & H)%list_elem_of_bind.
    by apply IH in H.
Qed.

(** A pattern without capture groups leaves the captures as they are. *)
Lemma matches_no_group r : forall k fwd (st st' : mstate),
  ngroups r = O ->
  st' ∈ matches icase input r k fwd st -> st'.2 = st.2.
Proof.
  induction r as [|c| |rs|r1 IH1 r2 IH2|r1 IH1 r2 IH2|behind negative r IH|r IH];
    intros k fwd st st'; cbn [matches ngroups]; intros Hg.
  - by intros ->%list_elem_of_singleton.
  - by intros [H _]%step_elem.
  - by intros [H _]%step_elem.
  - by intros [H _]%step_elem.
  - destruct fwd.
    + intros (st1 & H2 & H1)%list_elem_of_bind.
      apply IH1 in H1; [|lia]. apply IH2 in H2; [|lia]. congruence.
    + intros (st2 & H1 & H2)%list_elem_of_bind.
      apply IH1 in H1; [|lia]. apply IH2 in H2; [|lia]. congruence.
  - intros [H|H]%elem_of_app; [apply IH1 in H|apply IH2 in H]; done || lia.
  - destruct (matches icase input r k (negb behind) st) as [|[p c] l] eqn:E;
      destruct negative; try (by intros ?%elem_of_nil);
      intros ->%list_elem_of_singleton; [done|]. simpl.
    apply (IH k (negb behind) st (p, c)); [done|]. rewrite E. left.
  - done.
Qed.

Lemma matches_consumes r : forall k (st st' : mstate),
  consumes r = true ->
  st' ∈ matches icase input r k true st ->
  (st.1 < st'.1 <= length input)%nat.
Proof.
  induction r as [|c| |rs|r1 IH1 r2 IH2|r1 IH1 r2 IH2|behind negative r IH|r IH];
    intros k st st'; cbn [matches consumes]; intros Hc; try done.
  - intros [_ H]%step_elem. lia.
  - intros [_ H]%step_elem. lia.
  - intros [_ H]%step_elem. lia.
  - intros (st1 & H2 & H1)%list_elem_of_bind.
    pose proof (matches_range _ _ _ _ _ H1) as R1.
    pose proof (matches_range _ _ _ _ _ H2) as R2. simpl in R1, R2.
    apply orb_true_iff in Hc as [Hc|Hc].
    + apply IH1 in H1; [|done]. lia.
    + apply IH2 in H2; [|done]. lia.
  - apply andb_true_iff in Hc as [Hc1 Hc2].
    intros [H|H]%elem_of_app; [by apply IH1 in H|by apply IH2 in H].
  - intros ([p c] & ->%list_elem_of_singleton & H)%list_elem_of_bind.
    by apply IH in H.
Qed.

(** An alternation of groups, none of which has a group inside, captures
    the matched text in the group of the alternative taken and nothing
    else. *)
Lemma matches_alternation_groups (rs : list regex) : forall k q c e c',
  rs <> [] -> Forall (fun r => ngroups r = O) rs ->
  (e, c') ∈ matches icase input (alternation (List.map Group rs)) k true (q, c) ->
  exists i, (i < length rs)%nat /\ (q <= e)%nat
    /\ c' = <[(k + i)%nat := Some (take (e - q) (drop q input))]> c.
Proof.
  induction rs as [|r rs IH]; intros k q c e c' Hne Hg; [done|].
  inversion_clear Hg as [|? ? Hr Hg'].
  assert (forall k, (e, c') ∈ matches icase input (Group r) k true (q, c) ->
            (q <= e)%nat /\ c' = <[k := Some (take (e - q) (drop q input))]> c) as HG.
  { intros k'. cbn [matches].
    intros ([p c0] & H1%list_elem_of_singleton & H)%list_elem_of_bind.
    pose proof (matches_range _ _ _ _ _ H) as [R _].
    apply matches_no_group in H; [|done]. simpl in *.
    injection H1 as -> ->. subst c0.
    split; [done|]. by rewrite Nat.max_r, Nat.min_l by lia. }
  destruct rs as [|r' rs].
  - simpl. intros [? ->]%HG. exists O. rewrite Nat.add_0_r. simpl. split; [lia|done].
  - change (alternation (List.map Group (r :: r' :: rs)))
      with (Alt (Group r) (alternation (List.map Group (r' :: rs)))).
    cbn [matches]. intros [H|H]%elem_of_app.
    + apply HG in H as [? ->]. exists O. rewrite Nat.add_0_r. simpl. split; [lia|done].
    + apply IH in H as (i & Hi & Hq & ->); [|done|done].
      exists (S i). cbn [ngroups]. rewrite Hr. simpl in *.
      split; [lia|]. split; [done|]. f_equal. lia.
Qed.

End MatcherFacts.

(** ** [split] *)

Section SplitFacts.
Import JS Regex.

Lemma join_cons (x : element) (a : list element) :
  join (x :: a) = default [] x ++ join a.
Proof. done. Qed.

Lemma join_app (a b : list element) : join (a ++ b) = join a ++ join b.
Proof. unfold join. by rewrite List.map_app, concat_app. Qed.

(** One capture set in an array of [undefined] ones. *)
Lemma join_insert_replicate (n i : nat) (x : jsstring) :
  (i < n)%nat -> join (<[i := Some x]> (replicate n None)) = x.
Proof.
  intros Hi. rewrite insert_replicate_lt by done.
  rewrite join_app, join_cons. simpl.
  assert (forall m, join (replicate m (None : element)) = []) as Hnone.
  { induction m; [done|]. by rewrite <- IHm. }
  by rewrite !Hnone, app_nil_r.
Qed.

Lemma undefined_in_insert_replicate (n i : nat) (x : jsstring) :
  (2 <= n)%nat -> None ∈ <[i := Some x]> (replicate n (None : element)).
Proof.
  intros Hn. destruct (decide (i = O)) as [->|Hi].
  - apply (list_elem_of_lookup_2 _ 1%nat).
    rewrite list_lookup_insert_ne by done. apply lookup_replicate_2. lia.
  - apply (list_elem_of_lookup_2 _ O).
    rewrite list_lookup_insert_ne by done. apply lookup_replicate_2. lia.
Qed.

Variable rx : RegExp.
Variable input : jsstring.

(** When every match of the pattern is within the input, not empty, and
    its captures spell the matched text, the pieces and captures that
    [split] returns spell the input. *)
Lemma split_loop_join n : forall p q,
  (forall q e caps, exec_at rx input q = Some (e, caps) ->
     (q < e <= length input)%nat /\ join caps = take (e - q) (drop q input)) ->
  (p <= q <= length input)%nat ->
  join (split_loop n rx input p q) = drop p input.
Proof.
  induction n as [|n IH]; intros p q Hrx Hpq; cbn [split_loop].
  - by rewrite join_cons, app_nil_r.
  - destruct (Nat.ltb_spec q (length input)) as [Hq|Hq];
      [|by rewrite join_cons, app_nil_r].
    destruct (exec_at rx input q) as [[e caps]|] eqn:E; [|apply IH; [done|lia]].
    apply Hrx in E as [He Hcaps].
    rewrite Nat.min_l by lia.
    destruct (Nat.eqb_spec e p) as [->|Hne]; [lia|].
    rewrite join_cons, join_app, Hcaps, IH by (done || lia). simpl.
    rewrite <- (take_drop (q - p) (drop p input)) at 2.
    f_equal. rewrite drop_drop. replace (p + (q - p))%nat with q by lia.
    rewrite <- (take_drop (e - q) (drop q input)) at 2.
    f_equal. rewrite drop_drop. f_equal. lia.
Qed.

(** When every match is not empty and leaves a capture [undefined], the
    array [split] returns has an [undefined] element as soon as the
    pattern matches somewhere. *)
Lemma split_loop_undefined n : forall p q q',
  (forall q e caps, exec_at rx input q = Some (e, caps) ->
     (q < e <= length input)%nat /\ None ∈ caps) ->
  (p <= q <= q')%nat -> (q' < length input)%nat ->
  is_Some (exec_at rx input q') ->
  (2 * (length input - q) < n)%nat ->
  None ∈ split_loop n rx input p q.
Proof.
  induction n as [|n IH]; intros p q q' Hrx Hpq Hq' Hm Hn; [lia|].
  cbn [split_loop].
  destruct (Nat.ltb_spec q (length input)) as [Hq|Hq]; [|lia].
  destruct (exec_at rx input q) as [[e caps]|] eqn:E.
  - apply Hrx in E as [He Hcaps].
    rewrite Nat.min_l by lia.
    destruct (Nat.eqb_spec e p) as [->|Hne]; [lia|].
    apply elem_of_cons. right. apply elem_of_app. by left.
  - apply (IH p (S q) q'); [done| |done|done|lia].
    destruct (decide (q = q')) as [->|]; [|lia].
    rewrite E in Hm. by destruct Hm.
Qed.

End SplitFacts.

(** ** The default tokenizer *)

Section TokenizerFacts.
Import JS Regex Core TTS.

Lemma defaultTokenizer_source :
  source defaultTokenizer = alternation (List.map Group default_cases).
Proof. reflexivity. Qed.

(** A match of the combined pattern at [q] ends at some [e > q] within the
    input; of its four captures, one is the matched text and the others
    are [undefined]. *)
Lemma defaultTokenizer_exec (input : jsstring) (q e : nat) (caps : captures) :
  exec_at defaultTokenizer input q = Some (e, caps) ->
  (q < e <= length input)%nat
  /\ exists i, (i < 4)%nat
       /\ caps = <[i := Some (take (e - q) (drop q input))]> (replicate 4 None).
Proof.
  unfold exec_at. intros H%head_Some_elem_of.
  pose proof (matches_consumes _ _ (source defaultTokenizer) _ _ _ eq_refl H) as C.
  simpl in C. split; [done|].
  rewrite defaultTokenizer_source in H.
  apply matches_alternation_groups in H as (i & Hi & _ & ->);
    [|done|by repeat constructor].
  exists i. by split.
Qed.

(** C7, as the code has it.  Joining the array the default tokenizer
    returns gives back the text exactly: every matched delimiter is kept
    whole in its capture, the space after a period or comma included. *)
Theorem tokenizer_join_roundtrip (text : jsstring) :
  join (defaultTokenizerFunc text) = text.
Proof.
  assert (forall q e caps, exec_at defaultTokenizer text q = Some (e, caps) ->
            (q < e <= length text)%nat /\ join caps = take (e - q) (drop q text)) as Hrx.
  { intros q e caps (He & i & Hi & ->)%defaultTokenizer_exec.
    split; [done|]. by apply join_insert_replicate. }
  unfold defaultTokenizerFunc, Tokenizer_run, split.
  destruct text as [|c text].
  - destruct (exec_at defaultTokenizer [] 0) as [[e caps]|] eqn:E; [|done].
    apply Hrx in E. simpl in E. lia.
  - rewrite split_loop_join; [done|done|lia].
Qed.

(** C7 fails as stated: the space after the comma of ["a, b"] is part of
    the token [", "], and joining the tokens gives ["a, b"], not ["a,b"]. *)
Lemma tokenizer_keeps_trailing_space :
  defaultTokenizerFunc (str "a, b")
  = [Some (str "a"); None; Some (str ", "); None; None; Some (str "b")]
  /\ join (defaultTokenizerFunc (str "a, b")) = str "a, b"
  /\ str "a, b" <> str "a,b".
Proof. split; [reflexivity|]. split; [reflexivity|discriminate]. Qed.

(** C2, what the code does.  As soon as the combined pattern of the
    default tokenizer matches somewhere in the text, the array returned
    by [Tokenizer.run] holds an [undefined] element, and [cleanTokens]
    throws a [TypeError] on it. *)
Theorem tokenizer_returns_undefined (text : jsstring) (q : nat) :
  (q < length text)%nat ->
  is_Some (exec_at defaultTokenizer text q) ->
  None ∈ defaultTokenizerFunc text
  /\ exists msg, Utils.cleanTokens (defaultTokenizerFunc text) = Throw (TypeError msg).
Proof.
  intros Hq Hm.
  assert (None ∈ defaultTokenizerFunc text) as Hin.
  { unfold defaultTokenizerFunc, Tokenizer_run, split.
    destruct text as [|c text]; [simpl in Hq; lia|].
    apply (split_loop_undefined _ _ _ 0 0 q)%nat; [|lia|done|done|lia].
    intros q' e caps (He & i & Hi & ->)%defaultTokenizer_exec.
    split; [done|]. apply undefined_in_insert_replicate. lia. }
  split; [done|].
  destruct (cleanTokens_cases (defaultTokenizerFunc text))
    as [(ts & Hts & _)|(_ & msg & ->)]; [|by exists msg].
  rewrite Hts in Hin. apply list_elem_of_In, in_map_iff in Hin as (? & ? & _). done.
Qed.

Lemma tokenizer_returns_undefined_witness :
  None ∈ defaultTokenizerFunc (str "a, b")
  /\ exists msg, Utils.cleanTokens (defaultTokenizerFunc (str "a, b"))
                 = Throw (TypeError msg).
Proof.
  apply (tokenizer_returns_undefined (str "a, b") 1).
  - simpl. lia.
  - vm_compute. by eexists.
Defined.

(** The engine on a text of 103 code units with one comma. *)
Lemma tokenize_throws_on_long_text_with_comma :
  tokenize (default_gTTS []) (a100 ++ str ", b")
  = Throw (TypeError (str "undefined is not an object (evaluating 't.trim')")).
Proof. vm_compute. reflexivity. Qed.

(** C9.  The default tokenizer returns ["It costs 3.50 at 10:15."] as a
    single token: no case matches anywhere in it.  In particular the
    period/comma case does not match at the period of ["3.50"] (index 10),
    which no space follows, and the colon case does not match at the colon
    of ["10:15"] (index 19), which a digit precedes.  The engine returns
    the text as its only chunk. *)
Theorem decimal_time_guard :
  defaultTokenizerFunc (str "It costs 3.50 at 10:15.")
  = [Some (str "It costs 3.50 at 10:15.")]
  /\ Forall (fun q => exec_at defaultTokenizer (str "It costs 3.50 at 10:15.") q = None)
       (seq 0 24)
  /\ (str "It costs 3.50 at 10:15.") !! 10%nat = Some 46%N
  /\ exec_at TokenizerCases.periodComma (str "It costs 3.50 at 10:15.") 10 = None
  /\ (str "It costs 3.50 at 10:15.") !! 19%nat = Some 58%N
  /\ exec_at TokenizerCases.colon (str "It costs 3.50 at 10:15.") 19 = None
  /\ tokenize (default_gTTS []) (str "It costs 3.50 at 10:15.")
     = Ok [str "It costs 3.50 at 10:15."].
Proof.
  split; [vm_compute; reflexivity|].
  split; [repeat constructor; vm_compute; reflexivity|].
  repeat split; vm_compute; reflexivity.
Qed.

End TokenizerFacts.

(** ** [replace] with a zero-width pattern *)

Section ReplaceFacts.
Import JS Regex.

Variable rx : RegExp.
Variable input repl : jsstring.
Variable P : nat -> bool.

(** The pattern matches the empty string at the indices where [P] holds,
    and nothing else. *)
Hypothesis exec_at_P : forall i,
  exec_at rx input i = if P i then Some (i, []) else None.

Lemma exec_from_P i :
  (i <= length input)%nat ->
  exec_from rx input i =
  if P i then Some (i, (i, []))
  else if (i <? length input)%nat then exec_from rx input (S i) else None.
Proof.
  intros Hi. unfold exec_from.
  replace (S (length input) - i)%nat with (S (length input - i)) by lia.
  cbn [search]. rewrite exec_at_P. destruct (P i); [done|].
  destruct (Nat.ltb_spec i (length input)).
  - by replace (S (length input) - S i)%nat with (length input - i)%nat by lia.
  - by replace (length input - i)%nat with O by lia.
Qed.

Lemma replace_loop_weave (d : nat) : forall n i next acc,
  d = (length input - i)%nat ->
  (next <= i <= length input)%nat ->
  (length input + 2 <= n + i)%nat ->
  replace_loop n rx input repl i next acc
  = acc ++ take (i - next) (drop next input) ++ weave P repl i (drop i input).
Proof.
  induction d as [|d IH]; intros n i next acc Hd Hi Hn;
    (destruct n as [|n]; [lia|]); cbn [replace_loop];
    rewrite exec_from_P by lia.
  - (* the end of the input *)
    assert (i = length input) as -> by lia.
    rewrite drop_all. cbn [weave]. rewrite Nat.ltb_irrefl.
    destruct (P (length input)).
    + rewrite Nat.eqb_refl. destruct (Nat.leb_spec next (length input)); [|lia].
      destruct n as [|n]; cbn [replace_loop]; unfold exec_from;
        rewrite ?Nat.sub_diag, ?drop_all, !app_nil_r, <- ?app_assoc; try done;
        replace (S (length input) - S (length input))%nat with O by lia;
        cbn [search]; by rewrite drop_all, app_nil_r.
    + rewrite app_nil_l, app_nil_r. f_equal.
      rewrite take_ge; [done|]. rewrite length_drop. lia.
  - (* an index inside the input *)
    assert (i < length input)%nat as Hlt by lia.
    destruct (lookup_lt_is_Some_2 input i Hlt) as [c Hc].
    rewrite (drop_S _ _ _ Hc). cbn [weave].
    assert (take (S i - next) (drop next input)
            = take (i - next) (drop next input) ++ [c]) as Htake.
    { replace (S i - next)%nat with (S (i - next)) by lia.
      apply take_S_r. rewrite lookup_drop. by replace (next + (i - next))%nat with i by lia. }
    destruct (P i).
    + rewrite Nat.eqb_refl. destruct (Nat.leb_spec next i); [|lia].
      rewrite (IH n (S i) i) by lia.
      replace (S i - i)%nat with 1%nat by lia.
      rewrite (drop_S _ _ _ Hc). cbn [take]. rewrite take_0.
      by rewrite <- !app_assoc.
    + destruct (Nat.ltb_spec i (length input)); [|lia].
      pose proof (IH (S n) (S i) next acc) as IH'.
      cbn [replace_loop] in IH'. rewrite IH' by lia.
      rewrite Htake. by rewrite <- !app_assoc.
Qed.

Lemma replace_global_weave :
  global (reflags rx) = true ->
  replace rx input repl = weave P repl 0 input.
Proof.
  intros Hg. unfold replace. rewrite Hg.
  rewrite (replace_loop_weave (length input)) by lia.
  by rewrite drop_0.
Qed.

End ReplaceFacts.

(** ** The tone-mark pre-processor *)

Section ToneMarkFacts.
Import JS Regex Core PreProcessors.

Lemma exec_at_after_mark (x : N) (input : jsstring) (i : nat) :
  exec_at (after_mark x) input i =
  if preceded x input i then Some (i, []) else None.
Proof.
  unfold exec_at, after_mark, preceded. cbn.
  destruct i as [|i]; [done|].
  destruct (input !! i) as [ch|]; [|done].
  by destruct (N.eqb ch x).
Qed.

Lemma weave_preceded (x : N) (input repl : jsstring) (l : jsstring) : forall i,
  drop i input = l ->
  weave (preceded x input) repl i l
  = (if preceded x input i then repl else []) ++ insert_after x repl l.
Proof.
  induction l as [|c l IH]; intros i Hl; cbn [weave]; [done|].
  assert (input !! i = Some c) as Hc.
  { rewrite <- (Nat.add_0_r i), <- lookup_drop, Hl. done. }
  rewrite (IH (S i)).
  - f_equal. cbn [insert_after List.flat_map preceded]. rewrite Hc.
    destruct (N.eqb c x); simpl; done.
  - rewrite (drop_S _ _ _ Hc) in Hl. by injection Hl.
Qed.

Lemma replace_after_mark (x : N) (input repl : jsstring) :
  replace (after_mark x) input repl = insert_after x repl input.
Proof.
  rewrite (replace_global_weave _ _ _ (preceded x input)).
  - by rewrite (weave_preceded x input repl input 0) by apply drop_0.
  - apply exec_at_after_mark.
  - done.
Qed.

Lemma toneMarks_unfold (text : jsstring) :
  PreProcessors.toneMarks text
  = replace (after_mark 65281)
      (replace (after_mark 65311)
         (replace (after_mark 33)
            (replace (after_mark 63) text (str " ")) (str " ")) (str " "))
      (str " ").
Proof. reflexivity. Qed.

Lemma insert_after_app (x : N) (repl l1 l2 : jsstring) :
  insert_after x repl (l1 ++ l2) = insert_after x repl l1 ++ insert_after x repl l2.
Proof. apply List.flat_map_app. Qed.

Lemma insert_after_other (x : N) (repl : jsstring) (c : N) :
  N.eqb c x = false -> insert_after x repl [c] = [c].
Proof. unfold insert_after. simpl. by intros ->. Qed.

(** C6, as the code has it.  The tone-mark pre-processor puts a space after
    every code unit of [TONE_MARKS], whatever follows it: a mark followed
    by a space, or by nothing, gets a space as well. *)
Theorem toneMarks_inserts_space_after_every_mark (text : jsstring) :
  PreProcessors.toneMarks text
  = List.flat_map
      (fun c => if List.existsb (N.eqb c) Symbols.TONE_MARKS then [c; 32%N] else [c])
      text.
Proof.
  rewrite toneMarks_unfold, !replace_after_mark.
  induction text as [|c text IH]; [done|].
  change (c :: text) with ([c] ++ text).
  rewrite !insert_after_app, List.flat_map_app, <- IH. f_equal.
  destruct (N.eqb_spec c 63) as [->|H1]; [reflexivity|].
  destruct (N.eqb_spec c 33) as [->|H2]; [reflexivity|].
  destruct (N.eqb_spec c 65311) as [->|H3]; [reflexivity|].
  destruct (N.eqb_spec c 65281) as [->|H4]; [reflexivity|].
  apply N.eqb_neq in H1, H2, H3, H4.
  rewrite !insert_after_other by done.
  unfold Symbols.TONE_MARKS. cbn [List.existsb List.flat_map app].
  by rewrite H1, H2, H3, H4.
Qed.

(** C6 fails as stated: a tone mark followed by a space gets a second
    space. *)
Lemma toneMarks_doubles_space :
  PreProcessors.toneMarks (str "a? b") = str "a?  b"
  /\ str "a?  b" <> str "a? b".
Proof. split; [reflexivity|discriminate]. Qed.

End ToneMarkFacts.

(** ** The model on the sample inputs of the sources and their documentation *)

Section Samples.
Import JS Utils TTS.

(** [new gTTS({ text, langCheck: false })] builds [default_gTTS text] for a
    non-empty text, and throws for the empty one. *)
Lemma new_gTTS_default (fallbackDeprecatedLang : jsstring -> jsstring)
    (ttsLangs : list jsstring) (c : N) (t : jsstring) :
  new_gTTS fallbackDeprecatedLang ttsLangs
    {| opt_text := c :: t; opt_tld := None; opt_lang := None; opt_slow := None;
       opt_langCheck := Some false; opt_preProcessorFuncs := None;
       opt_tokenizerFunc := None |}
  = Ok (default_gTTS (c :: t))
  /\ new_gTTS fallbackDeprecatedLang ttsLangs
       {| opt_text := []; opt_tld := None; opt_lang := None; opt_slow := None;
          opt_langCheck := Some false; opt_preProcessorFuncs := None;
          opt_tokenizerFunc := None |}
     = Throw (Error (str "No text to speak")).
Proof. split; reflexivity. Qed.

(** The period after ["Dr"] is removed by the pre-processors, and the
    engine returns the sentence as a single chunk. *)
Example abbreviation_period_removed :
  preprocess (default_gTTS []) (str "Dr. Smith went home.") = str "Dr Smith went home."
  /\ tokenize (default_gTTS []) (str "Dr. Smith went home.")
     = Ok [str "Dr Smith went home."].
Proof. split; vm_compute; reflexivity. Qed.

(** A hyphen at the end of a line is removed with the line feed. *)
Example hyphen_rejoin :
  PreProcessors.endOfLine (str "won-" ++ [10%N] ++ str "derful") = str "wonderful".
Proof. vm_compute. reflexivity. Qed.

Example word_substitution :
  PreProcessors.wordSub (str "John Smith, esq.") = str "John Smith, Esquire".
Proof. vm_compute. reflexivity. Qed.

(** A text of 250 code units without a space is cut at every 100th
    code unit. *)
Example long_unbroken_token :
  List.map (@length N) <$> tokenize (default_gTTS []) (replicate 250 97%N)
  = Ok [100; 100; 50]%nat.
Proof. vm_compute. reflexivity. Qed.

Example minimize_prefers_last_space :
  minimize (str "one two three four") (str " ") 9
  = Ok [str "one two"; str "three"; str "four"].
Proof. vm_compute. reflexivity. Qed.

Example tokenizer_cases_sample :
  defaultTokenizerFunc (str "Hi! you: ok (yes) e.g. this, 1:2.")
  = [Some (str "Hi!"); Some (str " "); None; None; None;
     Some (str "you"); None; None; Some (str ":"); None;
     Some (str " ok "); None; None; None; Some (str "(");
     Some (str "yes"); None; None; None; Some (str ")");
     Some (str " e.g. this"); None; Some (str ", "); None; None;
     Some (str "1:2.")].
Proof. vm_compute. reflexivity. Qed.

End Samples.

(** ** The loop bounds of [split] and [replace] are never reached early *)

Section LoopBounds.
Import JS Regex.
Variable rx : RegExp.
Variable input : jsstring.

Lemma exec_at_range (q e : nat) (caps : captures) :
  exec_at rx input q = Some (e, caps) -> (q <= e)%nat.
Proof.
  unfold exec_at. intros H%head_Some_elem_of.
  by apply matches_range in H as [H _].
Qed.

Lemma search_found (k : nat) : forall i position m,
  search rx input k i = Some (position, m) ->
  (i <= position)%nat /\ exec_at rx input position = Some m.
Proof.
  induction k as [|k IH]; intros i position m; cbn [search]; [done|].
  destruct (exec_at rx input i) as [m'|] eqn:E.
  - by intros [= <- <-].
  - intros H%IH. split; [lia|]. apply H.
Qed.

Lemma split_loop_enough (n1 : nat) : forall n2 p q,
  (p <= q)%nat -> (split_turns input p q <= n1)%nat -> (split_turns input p q <= n2)%nat ->
  split_loop n1 rx input p q = split_loop n2 rx input p q.
Proof.
  unfold split_turns.
  induction n1 as [|n1 IH]; intros n2 p q Hpq H1 H2.
  - destruct (Nat.ltb_spec q (length input)) as [Hq|Hq]; [lia|].
    destruct n2 as [|n2]; cbn [split_loop]; [done|].
    by destruct (Nat.ltb_spec q (length input)); [lia|].
  - destruct n2 as [|n2]; cbn [split_loop];
      destruct (Nat.ltb_spec q (length input)) as [Hq|Hq]; try done; [lia|].
    assert (split_loop n1 rx input p (S q) = split_loop n2 rx input p (S q)) as Hnext.
    { apply IH; [lia| |];
        destruct (Nat.ltb_spec (S q) (length input));
        destruct (Nat.ltb_spec p q); destruct (Nat.ltb_spec p (S q)); lia. }
    destruct (exec_at rx input q) as [[e caps]|] eqn:E; [|done].
    apply exec_at_range in E.
    destruct (Nat.eqb_spec (Nat.min e (length input)) p) as [He|He]; [done|].
    do 2 f_equal. apply IH; [lia| |];
      destruct (Nat.ltb_spec (Nat.min e (length input)) (length input));
      destruct (Nat.ltb_spec (Nat.min e (length input)) (Nat.min e (length input)));
      destruct (Nat.ltb_spec p q); lia.
Qed.

(** Any budget above the one [split] uses gives the same array. *)
Lemma split_fuel_irrelevant (n : nat) :
  (2 * length input + 1 <= n)%nat ->
  split_loop n rx input 0 0 = split_loop (2 * length input + 1) rx input 0 0.
Proof.
  intros Hn. apply split_loop_enough; [done| |]; unfold split_turns;
    destruct (Nat.ltb_spec 0 (length input)); simpl; lia.
Qed.

Lemma replace_loop_enough (repl : jsstring) (n1 : nat) :
  forall n2 lastIndex next acc,
  (length input + 2 <= n1 + lastIndex)%nat ->
  (length input + 2 <= n2 + lastIndex)%nat ->
  replace_loop n1 rx input repl lastIndex next acc
  = replace_loop n2 rx input repl lastIndex next acc.
Proof.
  assert (forall lastIndex, (length input < lastIndex)%nat ->
            exec_from rx input lastIndex = None) as Hend.
  { intros i Hi. unfold exec_from.
    by replace (S (length input) - i)%nat with O by lia. }
  induction n1 as [|n1 IH]; intros n2 lastIndex next acc H1 H2.
  - destruct n2 as [|n2]; cbn [replace_loop]; [done|].
    by rewrite Hend by lia.
  - destruct n2 as [|n2]; cbn [replace_loop].
    { by rewrite Hend by lia. }
    destruct (exec_from rx input lastIndex) as [[position [e caps]]|] eqn:E; [|done].
    apply search_found in E as [Hpos He%exec_at_range].
    destruct (Nat.eqb_spec e position);
      destruct (Nat.leb_spec next position); apply IH; lia.
Qed.

End LoopBounds.

(** ** The guards of the period/comma and colon cases *)

Section RuleFacts.
Import JS Regex Core TTS.
Variable icase : bool.
Variable input : jsstring.

Lemma matches_seq_elem r1 r2 k (st st' : mstate) :
  st' ∈ matches icase input (Seq r1 r2) k true st ->
  exists st1, st1 ∈ matches icase input r1 k true st
              /\ st' ∈ matches icase input r2 (k + ngroups r1) true st1.
Proof.
  cbn [matches]. intros (st1 & H2 & H1)%list_elem_of_bind. by exists st1.
Qed.

Lemma matches_alt_elem r1 r2 k fwd (st st' : mstate) :
  st' ∈ matches icase input (Alt r1 r2) k fwd st ->
  st' ∈ matches icase input r1 k fwd st
  \/ st' ∈ matches icase input r2 (k + ngroups r1) fwd st.
Proof. cbn [matches]. by intros ?%elem_of_app. Qed.

Lemma matches_char_elem c k (st st' : mstate) :
  st' ∈ matches icase input (Char c) k true st ->
  st'.1 = S st.1
  /\ exists ch, input !! st.1 = Some ch
                /\ canonicalize icase ch = canonicalize icase c.
Proof.
  cbn [matches]. destruct st as [p caps]. cbn [step fst snd].
  destruct (input !! p) as [ch|]; [|by intros ?%elem_of_nil].
  destruct (N.eqb_spec (canonicalize icase ch) (canonicalize icase c));
    [|by intros ?%elem_of_nil].
  intros ->%list_elem_of_singleton. split; [done|]. by exists ch.
Qed.

Lemma matches_look_elem behind negative r k fwd (st st' : mstate) :
  st' ∈ matches icase input (Look behind negative r) k fwd st ->
  st'.1 = st.1
  /\ if negative then matches icase input r k (negb behind) st = []
     else matches icase input r k (negb behind) st <> [].
Proof.
  cbn [matches].
  destruct (matches icase input r k (negb behind) st) as [|[p c] l];
    destruct negative; try (by intros ?%elem_of_nil);
    by intros ->%list_elem_of_singleton.
Qed.

End RuleFacts.

Section RuleGuards.
Import JS Regex Core TTS.

(** The period/comma case needs a space right after the mark. *)
Lemma periodComma_needs_space (icase : bool) (input : jsstring) (q : nat) :
  input !! S q <> Some 32%N ->
  exec_at {| source := source TokenizerCases.periodComma;
             reflags := {| ignoreCase := icase; global := false |} |} input q
  = None.
Proof.
  intros Hsp. unfold exec_at.
  destruct (head _) as [st'|] eqn:E; [exfalso|done].
  apply head_Some_elem_of in E. cbn [source reflags ignoreCase] in E.
  change (source TokenizerCases.periodComma) with
    (Alt (Seq (Look true true (Seq (Char 46) (Class [(97, 122)]%N)))
            (Seq (Char 46) (Char 32)))
         (Seq (Look true true (Seq (Char 46) (Class [(97, 122)]%N)))
            (Seq (Char 44) (Char 32)))) in E.
  apply matches_alt_elem in E as [E|E];
    apply matches_seq_elem in E as (st1 & [H1 _]%matches_look_elem & E);
    apply matches_seq_elem in E as (st2 & [H2 _]%matches_char_elem & E);
    apply matches_char_elem in E as (_ & ch & Hch & Hc);
    rewrite H2, H1 in Hch; cbn in Hch;
    destruct icase; cbn in Hc; unfold toUpperASCII in Hc;
    repeat case_match; try (apply andb_true_iff in H as [?%N.leb_le ?%N.leb_le]);
    apply Hsp; rewrite Hch; f_equal; lia.
Qed.

(** The colon case does not match right after a digit. *)
Lemma colon_not_after_digit (icase : bool) (input : jsstring) (q : nat) (d : N) :
  input !! q = Some d -> (48 <= d <= 57)%N ->
  exec_at {| source := source TokenizerCases.colon;
             reflags := {| ignoreCase := icase; global := false |} |} input (S q)
  = None.
Proof.
  intros Hq Hd. unfold exec_at.
  destruct (head _) as [st'|] eqn:E; [exfalso|done].
  apply head_Some_elem_of in E. cbn [source reflags ignoreCase] in E.
  change (source TokenizerCases.colon) with
    (Seq (Look true true (Class [(48, 57)]%N)) (Char 58)) in E.
  apply matches_seq_elem in E as (st1 & [_ H1]%matches_look_elem & _).
  revert H1. cbn [matches step]. cbn. rewrite Hq.
  unfold class_matches, in_ranges. cbn [List.existsb].
  destruct (N.leb_spec 48 d); [|lia]. destruct (N.leb_spec d 57); [|lia].
  by destruct icase.
Qed.

End RuleGuards.

(** ** More on the minimizer: what the chunks are made of *)

Section MinimizeChunks.
Import JS Utils.

Lemma strip_delim_split (s d : jsstring) :
  exists p, (p = [] \/ p = d) /\ s = p ++ strip_delim s d.
Proof.
  unfold strip_delim. destruct (startsWith s d) eqn:E.
  - exists d. split; [by right|].
    apply bool_decide_eq_true in E. unfold substring_from.
    rewrite clamp_of_nat.
    assert (length d <= length s)%nat.
    { rewrite <- E at 1. rewrite length_take. lia. }
    rewrite Nat.min_l by done. rewrite <- E at 1. by rewrite take_drop.
  - exists []. split; [by left|done].
Qed.

Lemma substring_cut (s : jsstring) (idx : Z) :
  substring s 0 idx ++ substring_from s idx = s.
Proof. rewrite substring_0. unfold substring_from. apply take_drop. Qed.

Lemma minimize_fuel_reconstructs fuel : forall (s d : jsstring) m l,
  minimize_fuel fuel s d m = Ok l ->
  exists seps, length seps = length l
    /\ Forall (fun p => p = [] \/ p = d) seps
    /\ s = concat (zip_with app seps l).
Proof.
  induction fuel as [|fuel IH]; intros s d m l; [done|].
  rewrite minimize_fuel_unfold. cbv zeta.
  destruct (strip_delim_split s d) as (p & Hp & Hs).
  destruct (_ >? m).
  - destruct (minimize_fuel fuel _ d m) as [rest| |] eqn:E; simpl; try done.
    intros [= <-]. apply IH in E as (seps & Hlen & Hseps & Hrest).
    exists (p :: seps). split; [simpl; by rewrite Hlen|].
    split; [by constructor|]. simpl. rewrite <- Hrest, <- app_assoc.
    by rewrite substring_cut.
  - intros [= <-]. exists [p]. split; [done|]. split; [by constructor|].
    simpl. by rewrite app_nil_r.
Qed.

(** X1.  The chunks [minimize] returns, taken in order, spell the input
    again once at most one delimiter is put back in front of each chunk:
    nothing but single delimiters at cut points is lost, and nothing is
    reordered. *)
Theorem minimize_reconstructs (theString delim : jsstring) (maxSize : Z)
    (l : list jsstring) :
  minimize theString delim maxSize = Ok l ->
  exists seps, length seps = length l
    /\ Forall (fun p => p = [] \/ p = delim) seps
    /\ theString = concat (zip_with app seps l).
Proof. apply minimize_fuel_reconstructs. Qed.

Lemma minimize_reconstructs_witness :
  exists seps, length seps = length [str "one two"; str "three"; str "four"]
    /\ Forall (fun p => p = [] \/ p = str " ") seps
    /\ str "one two three four"
       = concat (zip_with app seps [str "one two"; str "three"; str "four"]).
Proof.
  apply (minimize_reconstructs (str "one two three four") (str " ") 9).
  vm_compute. reflexivity.
Defined.

Lemma occurs_at_drop (s d : jsstring) (n k : nat) :
  occurs_at (drop n s) d k = occurs_at s d (n + k).
Proof. unfold occurs_at. by rewrite drop_drop. Qed.

Lemma lastIndexFrom_absent (s d : jsstring) (k : nat) :
  (forall i, occurs_at s d i = false) -> lastIndexFrom s d k = -1.
Proof.
  intros H. induction k as [|k IH]; cbn [lastIndexFrom]; rewrite H; done.
Qed.

Lemma minimize_fuel_no_delimiter fuel : forall (s d : jsstring) m,
  0 < m -> (length s < fuel)%nat ->
  (forall k, occurs_at s d k = false) ->
  exists l, minimize_fuel fuel s d m = Ok l
    /\ concat l = s
    /\ (forall i c, l !! i = Some c -> (S i < length l)%nat ->
          Z.of_nat (length c) = m)
    /\ (forall c, list.last l = Some c -> Z.of_nat (length c) <= m
          /\ (c = [] -> s = [])).
Proof.
  induction fuel as [|fuel IH]; intros s d m Hm Hf Hno; [lia|].
  rewrite minimize_fuel_unfold. cbv zeta.
  rewrite strip_delim_no_prefix by (by rewrite <- occurs_at_0).
  destruct (Z.gtb_spec (Z.of_nat (length s)) m) as [Hgt|Hle].
  - assert (cut_index s d m = m) as ->.
    { unfold cut_index, lastIndexOf. by rewrite lastIndexFrom_absent. }
    rewrite substring_0. unfold substring_from. rewrite clamp_small by lia.
    destruct (IH (drop (Z.to_nat m) s) d m Hm) as (l & -> & Hcat & Hfull & Hlast).
    { rewrite length_drop. lia. }
    { intros k. by rewrite occurs_at_drop. }
    eexists. split; [done|]. split; [|split].
    + simpl. by rewrite Hcat, take_drop.
    + intros [|i] c Hc Hi; simpl in *.
      * injection Hc as <-. rewrite length_take. lia.
      * apply (Hfull i c Hc). lia.
    + intros c Hc. destruct l as [|c' l'].
      * pose proof (f_equal (@length N) Hcat) as Hl.
        simpl in Hl. rewrite length_drop in Hl. lia.
      * rewrite last_cons_cons in Hc. destruct (Hlast c Hc) as [H1 H2].
        split; [done|]. intros ->. specialize (H2 eq_refl).
        pose proof (f_equal (@length N) H2) as Hl.
        rewrite length_drop in Hl. simpl in Hl. lia.
  - eexists. split; [done|]. split; [simpl; by rewrite app_nil_r|]. split.
    + intros [|i] c Hc Hi; simpl in *; lia.
    + intros c [= <-]. done.
Qed.

(** X2.  On a string in which the delimiter does not occur, [minimize]
    cuts at every [maxSize]-th code unit: the chunks spell the string with
    nothing lost, every chunk but the last is exactly [maxSize] long, and
    the last one is not empty unless the string is. *)
Theorem minimize_no_delimiter (theString delim : jsstring) (maxSize : Z) :
  0 < maxSize ->
  (forall k, occurs_at theString delim k = false) ->
  exists l, minimize theString delim maxSize = Ok l
    /\ concat l = theString
    /\ (forall i c, l !! i = Some c -> (S i < length l)%nat ->
          Z.of_nat (length c) = maxSize)
    /\ (forall c, list.last l = Some c -> Z.of_nat (length c) <= maxSize
          /\ (c = [] -> theString = [])).
Proof. intros Hm Hno. apply minimize_fuel_no_delimiter; [done|lia|done]. Qed.

Lemma minimize_no_delimiter_witness :
  exists l, minimize (str "abcdefg") (str " ") 3 = Ok l
    /\ concat l = str "abcdefg"
    /\ (forall i c, l !! i = Some c -> (S i < length l)%nat ->
          Z.of_nat (length c) = 3)
    /\ (forall c, list.last l = Some c -> Z.of_nat (length c) <= 3
          /\ (c = [] -> str "abcdefg" = [])).
Proof.
  apply (minimize_no_delimiter (str "abcdefg") (str " ") 3).
  - lia.
  - intros k. do 8 (destruct k as [|k]; [reflexivity|]). reflexivity.
Defined.

End MinimizeChunks.

(** ** More on the token cleaner *)

Section CleanMore.
Import JS Utils.

Lemma trimStart_head (s : jsstring) :
  match trimStart s with
  | [] => True
  | c :: _ => isWhiteSpace c = false
  end.
Proof.
  induction s as [|c s IH]; simpl; [done|].
  by destruct (isWhiteSpace c) eqn:E.
Qed.

Lemma trimStart_fixed (c : N) (s : jsstring) :
  isWhiteSpace c = false -> trimStart (c :: s) = c :: s.
Proof. simpl. by intros ->. Qed.

Lemma trimStart_snoc (s : jsstring) (c : N) :
  isWhiteSpace c = false -> trimStart (s ++ [c]) = trimStart s ++ [c].
Proof.
  intros Hc. induction s as [|x s IH]; simpl; [by rewrite Hc|].
  by destruct (isWhiteSpace x).
Qed.

Lemma trimEnd_cons (c : N) (s : jsstring) :
  isWhiteSpace c = false -> trimEnd (c :: s) = c :: trimEnd s.
Proof.
  intros Hc. unfold trimEnd. cbn [rev].
  by rewrite trimStart_snoc, rev_app_distr.
Qed.

Lemma trimEnd_last (s : jsstring) :
  match list.last (trimEnd s) with
  | None => True
  | Some c => isWhiteSpace c = false
  end.
Proof.
  unfold trimEnd. pose proof (trimStart_head (rev s)) as H.
  destruct (trimStart (rev s)) as [|c l]; [done|].
  simpl. by rewrite last_snoc.
Qed.

(** A trimmed string is empty, or begins and ends with code units that are
    not white space. *)
Lemma trim_ends (s : jsstring) :
  trim s = []
  \/ exists c c', head (trim s) = Some c /\ list.last (trim s) = Some c'
       /\ isWhiteSpace c = false /\ isWhiteSpace c' = false.
Proof.
  unfold trim. pose proof (trimStart_head s) as H.
  destruct (trimStart s) as [|c l]; [by left|].
  right. rewrite trimEnd_cons by done.
  pose proof (trimEnd_last (c :: l)) as HL. rewrite trimEnd_cons in HL by done.
  destruct (list.last (c :: trimEnd l)) as [c'|] eqn:E.
  - by exists c, c'.
  - by apply last_None in E.
Qed.

(** [trim] does nothing to a string that begins and ends with code units
    that are not white space. *)
Lemma trim_fixed (s : jsstring) (c c' : N) :
  head s = Some c -> list.last s = Some c' ->
  isWhiteSpace c = false -> isWhiteSpace c' = false -> trim s = s.
Proof.
  intros Hh Hl Hc Hc'. destruct s as [|x s]; [done|]. injection Hh as ->.
  unfold trim. rewrite trimStart_fixed by done. unfold trimEnd.
  apply last_Some in Hl as [l' Hl']. rewrite Hl', rev_app_distr. simpl.
  rewrite Hc'. simpl. by rewrite rev_involutive.
Qed.

Lemma trim_idempotent (s : jsstring) : trim (trim s) = trim s.
Proof.
  destruct (trim_ends s) as [->|(c & c' & Hh & Hl & Hc & Hc')]; [done|].
  by eapply trim_fixed.
Qed.

Lemma List_filter_idempotent {A} (f : A -> bool) (l : list A) :
  List.filter f (List.filter f l) = List.filter f l.
Proof.
  induction l as [|x l IH]; simpl; [done|].
  destruct (f x) eqn:E; simpl; rewrite ?E, IH; done.
Qed.

(** X3.  [cleanTokens] throws exactly when the array holds an [undefined]
    element.  Otherwise it returns at most as many tokens as it was given,
    and each of them begins and ends with a code unit that is not white
    space and is not made of punctuation and white space only. *)
Theorem cleanTokens_result (tokens : list element) :
  (None ∈ tokens /\ exists msg, cleanTokens tokens = Throw (TypeError msg))
  \/ ((None ∉ tokens) /\ exists ts, cleanTokens tokens = Ok ts
      /\ (length ts <= length tokens)%nat
      /\ Forall (fun t => ALL_PUNC_OR_SPACE_test t = false
                   /\ exists c c', head t = Some c /\ list.last t = Some c'
                        /\ isWhiteSpace c = false /\ isWhiteSpace c' = false) ts).
Proof.
  destruct (cleanTokens_cases tokens) as [(ts & -> & ->)|(Hin & msg & ->)].
  - right. split.
    { intros Hin. rewrite list_elem_of_In in Hin.
      apply in_map_iff in Hin as (x & [=] & _). }
    eexists. split; [done|]. split.
    + rewrite List.length_map. etrans; [apply List.filter_length_le|].
      by rewrite List.length_map.
    + apply Forall_forall. intros t Ht.
      apply filter_In in Ht as [Ht Hf].
      apply in_map_iff in Ht as (s & <- & _).
      apply andb_true_iff in Hf as [Hne Hp]. split; [by apply negb_true_iff|].
      destruct (trim_ends s) as [E|H]; [by rewrite E in Hne|done].
  - left. split; [by apply list_elem_of_In|]. by exists msg.
Qed.

Lemma cleanTokens_strings (l : list jsstring) :
  cleanTokens (List.map Some l)
  = Ok (List.filter (fun t => truthy t && negb (ALL_PUNC_OR_SPACE_test t))
          (List.map trim l)).
Proof.
  unfold cleanTokens.
  assert (map_trim (List.map Some l) = Ok (List.map trim l)) as ->; [|done].
  induction l as [|t l IH]; simpl; [done|]. by rewrite IH.
Qed.

(** X4.  Cleaning is idempotent: the tokens [cleanTokens] returns pass
    through it unchanged. *)
Theorem cleanTokens_idempotent (tokens : list element) (ts : list jsstring) :
  cleanTokens tokens = Ok ts -> cleanTokens (List.map Some ts) = Ok ts.
Proof.
  destruct (cleanTokens_cases tokens) as [(ts0 & -> & ->)|(_ & msg & ->)]; [|done].
  intros [= <-]. rewrite cleanTokens_strings. f_equal.
  set (f := fun t => truthy t && negb (ALL_PUNC_OR_SPACE_test t)).
  assert (List.map trim (List.filter f (List.map trim ts0))
          = List.filter f (List.map trim ts0)) as ->.
  { induction ts0 as [|t l IH]; simpl; [done|].
    destruct (f (trim t)); simpl; [|done]. by rewrite trim_idempotent, IH. }
  apply List_filter_idempotent.
Qed.

Lemma cleanTokens_idempotent_witness :
  cleanTokens (List.map Some [str "a"; str ". x"]) = Ok [str "a"; str ". x"].
Proof.
  apply (cleanTokens_idempotent
           [Some (str " a "); Some (str "..."); Some []; Some (str " . x")]).
  vm_compute. reflexivity.
Defined.

End CleanMore.

(** ** Texts on which a pattern cannot match *)

Section NoMatch.
Import JS Regex RegexSpec.

Lemma step_char (input : jsstring) fwd ok (st st' : mstate) :
  st' ∈ step input fwd ok st -> exists ch, In ch input /\ ok ch = true.
Proof.
  destruct st as [p c]. unfold step. destruct fwd.
  - destruct (input !! p) as [ch|] eqn:E; [|by intros ?%elem_of_nil].
    destruct (ok ch) eqn:Hok; [|by intros ?%elem_of_nil].
    intros _. exists ch. split; [|done].
    apply list_elem_of_In. by eapply list_elem_of_lookup_2.
  - destruct p as [|p]; [by intros ?%elem_of_nil|].
    destruct (input !! p) as [ch|] eqn:E; [|by intros ?%elem_of_nil].
    destruct (ok ch) eqn:Hok; [|by intros ?%elem_of_nil].
    intros _. exists ch. split; [|done].
    apply list_elem_of_In. by eapply list_elem_of_lookup_2.
Qed.

(** A match of a pattern that requires a literal of [cs] finds a code unit
    of the input with the canonical form of one of them. *)
Lemma matches_requires (icase : bool) (input : jsstring) (cs : list N) r :
  forall k fwd (st st' : mstate),
  requires_any cs r = true ->
  st' ∈ matches icase input r k fwd st ->
  exists ch c, In ch input /\ In c cs
    /\ canonicalize icase ch = canonicalize icase c.
Proof.
  induction r as [|c| |rs|r1 IH1 r2 IH2|r1 IH1 r2 IH2|behind negative r IH|r IH];
    intros k fwd st st'; cbn [matches requires_any]; intros Hreq; try done.
  - intros (ch & Hin & Hok%N.eqb_eq)%step_char.
    apply existsb_exists in Hreq as (c' & Hc' & ->%N.eqb_eq).
    by exists ch, c'.
  - apply orb_true_iff in Hreq as [Hreq|Hreq]; destruct fwd.
    + intros (st1 & _ & H1)%list_elem_of_bind. by eapply IH1.
    + intros (st2 & H1 & _)%list_elem_of_bind. by eapply IH1.
    + intros (st1 & H2 & _)%list_elem_of_bind. by eapply IH2.
    + intros (st2 & _ & H2)%list_elem_of_bind. by eapply IH2.
  - apply andb_true_iff in Hreq as [Hreq1 Hreq2].
    intros [H|H]%elem_of_app; [by eapply IH1|by eapply IH2].
  - destruct negative; [done|].
    destruct (matches icase input r k (negb behind) st) as [|[p c] l] eqn:E;
      [by intros ?%elem_of_nil|].
    intros _. apply (IH k (negb behind) st (p, c) Hreq). rewrite E. left.
  - intros ([p c] & _ & H)%list_elem_of_bind. by eapply IH.
Qed.

(** Only a code unit itself has the canonical form of a code unit that is
    not a letter. *)
Lemma canonicalize_not_letter (icase : bool) (ch c : N) :
  isLetter c = false ->
  canonicalize icase ch = canonicalize icase c -> ch = c.
Proof.
  unfold isLetter, canonicalize, toUpperASCII. intros Hc.
  apply orb_false_iff in Hc as [H1 H2].
  destruct icase; [|done].
  destruct (N.leb_spec 97 ch), (N.leb_spec ch 122), (N.leb_spec 97 c),
    (N.leb_spec c 122), (N.leb_spec 65 c), (N.leb_spec c 90);
    simpl in *; try done; lia.
Qed.

(** A pattern that requires one of the code units [cs], none of them a
    letter, matches nowhere in a text that has none of them. *)
Lemma exec_at_requires (rx : RegExp) (input : jsstring) (cs : list N) (q : nat) :
  requires_any cs (source rx) = true ->
  forallb (fun c => negb (isLetter c)) cs = true ->
  Forall (fun ch => ~ In ch cs) input ->
  exec_at rx input q = None.
Proof.
  intros Hreq Hcs Hin. unfold exec_at.
  destruct (head _) as [st'|] eqn:E; [exfalso|done].
  apply head_Some_elem_of in E.
  apply (matches_requires _ _ cs) in E as (ch & c & Hch & Hc & Hcan); [|done].
  rewrite forallb_forall in Hcs. specialize (Hcs c Hc).
  apply negb_true_iff in Hcs. apply canonicalize_not_letter in Hcan as ->; [|done].
  rewrite List.Forall_forall in Hin. by apply (Hin c).
Qed.

Lemma search_none (rx : RegExp) (input : jsstring) (k : nat) : forall i,
  (forall q, exec_at rx input q = None) -> search rx input k i = None.
Proof. induction k as [|k IH]; intros i H; cbn [search]; [done|]. rewrite H. by apply IH. Qed.

Lemma replace_no_match (rx : RegExp) (input repl : jsstring) :
  (forall q, exec_at rx input q = None) -> replace rx input repl = input.
Proof.
  intros H. unfold replace, exec_from.
  destruct (global (reflags rx)).
  - replace (length input + 2)%nat with (S (S (length input))) by lia.
    cbn [replace_loop]. unfold exec_from. by rewrite search_none.
  - by rewrite search_none.
Qed.

Lemma split_loop_no_match (rx : RegExp) (input : jsstring) (n : nat) : forall p q,
  (forall q, exec_at rx input q = None) ->
  split_loop n rx input p q = [Some (drop p input)].
Proof.
  induction n as [|n IH]; intros p q H; cbn [split_loop]; [done|].
  destruct (q <? length input)%nat; [|done]. rewrite H. by apply IH.
Qed.

Lemma split_no_match (rx : RegExp) (input : jsstring) :
  (forall q, exec_at rx input q = None) -> split rx input = [Some input].
Proof.
  intros H. unfold split. destruct input as [|c input]; [by rewrite H|].
  by rewrite split_loop_no_match.
Qed.

End NoMatch.

Section Unchanged.
Import JS Regex RegexSpec Core TTS.

Lemma exec_at_global (rx : RegExp) (input : jsstring) (q : nat) :
  exec_at {| source := source rx;
             reflags := {| ignoreCase := ignoreCase (reflags rx); global := true |} |}
    input q
  = exec_at rx input q.
Proof. done. Qed.

(** A pre-processor none of whose patterns matches anywhere in the text
    returns the text unchanged. *)
Lemma PreProcessorRegex_run_no_match (pp : PreProcessorRegex) (text : jsstring) :
  Forall (fun rx => forall q, exec_at rx text q = None) (regexes pp) ->
  PreProcessorRegex_run pp text = text.
Proof.
  unfold PreProcessorRegex_run. intros H.
  induction H as [|rx rxs Hrx _ IH]; simpl; [done|].
  rewrite replace_no_match; [done|]. intros q. by rewrite exec_at_global.
Qed.

Lemma Forall_not_In_app (cs1 cs2 cs : list N) (text : jsstring) :
  (forall c, In c cs -> In c (cs1 ++ cs2)) ->
  Forall (fun ch => ~ In ch (cs1 ++ cs2)) text ->
  Forall (fun ch => ~ In ch cs) text.
Proof.
  intros Hsub H. eapply List.Forall_impl; [|exact H].
  intros ch Hch Hin. by apply Hch, Hsub.
Qed.

Ltac no_match cs :=
  apply PreProcessorRegex_run_no_match; cbn -[exec_at];
  repeat (apply List.Forall_cons;
          [intros q; apply (exec_at_requires _ _ cs);
           [reflexivity|reflexivity|assumption]|]);
  apply List.Forall_nil.

Lemma preprocessors_plain (text : jsstring) :
  Forall (fun ch => ~ In ch (Symbols.TONE_MARKS ++ [45; 46]%N)) text ->
  PreProcessors.toneMarks text = text
  /\ PreProcessors.endOfLine text = text
  /\ PreProcessors.abbreviations text = text
  /\ PreProcessors.wordSub text = text.
Proof.
  intros H.
  assert (Forall (fun ch => ~ In ch Symbols.TONE_MARKS) text) as Htone.
  { eapply Forall_not_In_app; [|exact H]. intros c Hc. apply in_or_app. by left. }
  assert (Forall (fun ch => ~ In ch [45%N]) text) as Hhyphen.
  { eapply Forall_not_In_app; [|exact H]. intros c [<-|[]].
    apply in_or_app. right. by left. }
  assert (Forall (fun ch => ~ In ch [46%N]) text) as Hperiod.
  { eapply Forall_not_In_app; [|exact H]. intros c [<-|[]].
    apply in_or_app. right. right. by left. }
  split; [unfold PreProcessors.toneMarks; no_match Symbols.TONE_MARKS|].
  split; [unfold PreProcessors.endOfLine; no_match [45%N]|].
  split; [unfold PreProcessors.abbreviations; no_match [46%N]|].
  unfold PreProcessors.wordSub, PreProcessorSub_run. simpl fold_left.
  no_match [46%N].
Qed.

Lemma defaultTokenizer_no_match (text : jsstring) (q : nat) :
  Forall (fun ch => ~ In ch Symbols.ALL_PUNC) text ->
  exec_at defaultTokenizer text q = None.
Proof. intros H. by apply (exec_at_requires _ _ Symbols.ALL_PUNC). Qed.

(** X5.  A text that holds no tone mark, no hyphen and no period goes
    through each of the four default pre-processors, and so through the
    whole default pipeline, unchanged. *)
Theorem default_preprocessors_plain_text (text : jsstring) :
  Forall (fun ch => ~ In ch (Symbols.TONE_MARKS ++ [45; 46]%N)) text ->
  PreProcessors.toneMarks text = text
  /\ PreProcessors.endOfLine text = text
  /\ PreProcessors.abbreviations text = text
  /\ PreProcessors.wordSub text = text
  /\ fold_left (fun text pp => pp text) defaultPreProcessorFuncs text = text.
Proof.
  intros (H1 & H2 & H3 & H4)%preprocessors_plain.
  repeat split; try done. simpl. by rewrite H1, H2, H3, H4.
Qed.

Lemma default_preprocessors_plain_text_witness :
  PreProcessors.toneMarks (str "hello world") = str "hello world"
  /\ PreProcessors.endOfLine (str "hello world") = str "hello world"
  /\ PreProcessors.abbreviations (str "hello world") = str "hello world"
  /\ PreProcessors.wordSub (str "hello world") = str "hello world"
  /\ fold_left (fun text pp => pp text) defaultPreProcessorFuncs (str "hello world")
     = str "hello world".
Proof.
  apply (default_preprocessors_plain_text (str "hello world")).
  repeat constructor; intros Hin; simpl in Hin; intuition discriminate.
Defined.

(** X6.  On a text that holds no code unit of [ALL_PUNC], the default
    tokenizer finds nothing to split at: it returns the text as its only
    token, with no [undefined] element. *)
Theorem tokenizer_plain_text (text : jsstring) :
  Forall (fun ch => ~ In ch Symbols.ALL_PUNC) text ->
  defaultTokenizerFunc text = [Some text].
Proof.
  intros H. unfold defaultTokenizerFunc, Tokenizer_run.
  apply split_no_match. intros q. by apply defaultTokenizer_no_match.
Qed.

Lemma tokenizer_plain_text_witness :
  defaultTokenizerFunc (str "hello world") = [Some (str "hello world")].
Proof.
  apply (tokenizer_plain_text (str "hello world")).
  repeat constructor; intros Hin; simpl in Hin; intuition discriminate.
Defined.

Lemma Forall_trim (P : N -> Prop) (s : jsstring) :
  Forall P s -> Forall P (trim s).
Proof.
  assert (forall l, Forall P l -> Forall P (trimStart l)) as Hstart.
  { induction 1 as [|c l Hc Hl IH]; simpl; [done|].
    destruct (isWhiteSpace c); [done|by constructor]. }
  intros H. unfold trim, trimEnd.
  apply List.Forall_rev, Hstart, List.Forall_rev, Hstart, H.
Qed.

Lemma startsWith_space_trim (s : jsstring) : startsWith (trim s) (str " ") = false.
Proof.
  destruct (trim_ends s) as [->|(c & c' & Hh & _ & Hc & _)]; [done|].
  destruct (trim s) as [|x l]; [done|]. injection Hh as ->.
  unfold startsWith. apply bool_decide_eq_false. simpl. rewrite take_0.
  intros [= ->]. done.
Qed.

Lemma cleanTokens_single_plain (t : jsstring) :
  trim t = t -> Forall (fun ch => ~ In ch Symbols.ALL_PUNC) t ->
  Utils.cleanTokens [Some t] = Ok (List.filter Utils.truthy [t]).
Proof.
  intros Htrim Hpunc. unfold Utils.cleanTokens. cbn [Utils.map_trim mbind outcome_bind].
  rewrite Htrim. destruct t as [|c l]; [done|].
  destruct (trim_ends (c :: l)) as [E|(c0 & c' & Hh & _ & Hc & _)];
    rewrite Htrim in *; [done|]. injection Hh as <-.
  inversion_clear Hpunc as [|? ? Hy _].
  cbn [List.filter Utils.truthy Utils.ALL_PUNC_OR_SPACE_test forallb andb].
  rewrite Hc.
  assert (existsb (N.eqb c) Symbols.ALL_PUNC = false) as ->; [|done].
  apply not_true_is_false. intros (c1 & Hc1 & ->%N.eqb_eq)%existsb_exists. done.
Qed.

(** X7.  On a text that holds no code unit of [ALL_PUNC] and no hyphen,
    the default engine never throws: it returns the chunks into which
    [minimize] cuts the trimmed text at spaces, without the empty ones. *)
Theorem tokenize_plain_text (x text : jsstring) :
  Forall (fun ch => ~ In ch (Symbols.ALL_PUNC ++ [45%N])) text ->
  exists l, Utils.minimize (trim text) (str " ") GOOGLE_TTS_MAX_CHARS = Ok l
    /\ tokenize (default_gTTS x) text = Ok (List.filter Utils.truthy l).
Proof.
  intros H. apply (Forall_trim _ text) in H.
  pose proof (trim_idempotent text) as Htrim.
  pose proof (startsWith_space_trim text) as Hstart.
  assert (preprocess (default_gTTS x) text = trim text) as Hpre.
  { unfold preprocess. simpl.
    destruct (preprocessors_plain (trim text)) as (H1 & H2 & H3 & H4).
    - eapply Forall_not_In_app; [|exact H]. intros c Hc.
      apply in_app_or in Hc as [Hc|[<-|[<-|[]]]]; apply in_or_app.
      + left. revert Hc. unfold Symbols.TONE_MARKS, Symbols.ALL_PUNC. simpl.
        intuition.
      + right. by left.
      + left. unfold Symbols.ALL_PUNC. simpl. intuition.
    - by rewrite H1, H2, H3, H4. }
  generalize dependent (trim text). intros t H Htrim Hstart Hpre.
  assert (Forall (fun ch => ~ In ch Symbols.ALL_PUNC) t) as Hpunc.
  { eapply Forall_not_In_app; [|exact H]. intros c Hc. apply in_or_app. by left. }
  pose proof (cleanTokens_single_plain t Htrim Hpunc) as Hclean.
  rewrite tokenize_unfold, Hpre.
  destruct (Z.leb_spec (Z.of_nat (length t)) GOOGLE_TTS_MAX_CHARS) as [Hle|Hgt].
  - exists [t]. split; [|done].
    unfold Utils.minimize. rewrite minimize_fuel_unfold. cbv zeta.
    rewrite strip_delim_no_prefix by done.
    by destruct (Z.gtb_spec (Z.of_nat (length t)) GOOGLE_TTS_MAX_CHARS); [lia|].
  - destruct (minimize_fuel_ok (S (length t)) t (str " ") GOOGLE_TTS_MAX_CHARS)
      as (l & Hl & _); [done| |].
    { pose proof (strip_delim_length t (str " ")). lia. }
    exists l. split; [done|].
    unfold default_gTTS at 1. cbn [tokenizerFunc].
    unfold defaultTokenizerFunc, Tokenizer_run.
    rewrite split_no_match by (intros q; by apply defaultTokenizer_no_match).
    rewrite Hclean.
    destruct t as [|c t']; [unfold GOOGLE_TTS_MAX_CHARS in Hgt; simpl in Hgt; lia|].
    cbn [List.filter Utils.truthy mbind outcome_bind minimize_each foldr].
    unfold Utils.minimize in Hl |- *. rewrite Hl.
    cbn [mbind outcome_bind]. by rewrite app_nil_r.
Qed.

Lemma tokenize_plain_text_witness :
  exists l, Utils.minimize (trim (str " hello world ")) (str " ") GOOGLE_TTS_MAX_CHARS = Ok l
    /\ tokenize (default_gTTS []) (str " hello world ") = Ok (List.filter Utils.truthy l).
Proof.
  apply (tokenize_plain_text [] (str " hello world ")).
  repeat constructor; intros Hin; simpl in Hin; intuition discriminate.
Defined.

End Unchanged.

(** ** [replace] with a pattern whose matches have a fixed, positive width *)

Section FixedWidth.
Import JS Regex RegexSpec.
Variable rx : RegExp.
Variable input repl : jsstring.
Variable w : nat.

Hypothesis width_positive : (1 <= w)%nat.
Hypothesis width_fixed : forall i e caps,
  exec_at rx input i = Some (e, caps) -> e = (i + w)%nat.

Lemma exec_from_step (i : nat) :
  (i <= length input)%nat ->
  exec_from rx input i =
  match exec_at rx input i with
  | Some m => Some (i, m)
  | None => if (i <? length input)%nat then exec_from rx input (S i) else None
  end.
Proof.
  intros Hi. unfold exec_from.
  replace (S (length input) - i)%nat with (S (length input - i)) by lia.
  cbn [search]. destruct (exec_at rx input i); [done|].
  destruct (Nat.ltb_spec i (length input)).
  - by replace (S (length input) - S i)%nat with (length input - i)%nat by lia.
  - by replace (length input - i)%nat with O by lia.
Qed.

Lemma match_within (i e : nat) (caps : captures) :
  (i <= length input)%nat ->
  exec_at rx input i = Some (e, caps) -> (i + w <= length input)%nat.
Proof.
  intros Hi E. pose proof (width_fixed _ _ _ E) as ->.
  unfold exec_at in E. apply head_Some_elem_of, matches_range in E as [_ E].
  by apply E.
Qed.

Lemma substitute_skip (k : nat) : forall i (l : jsstring),
  (k <= length l)%nat ->
  substitute (matches_at rx input) w repl i k l
  = substitute (matches_at rx input) w repl (i + k) 0 (drop k l).
Proof.
  induction k as [|k IH]; intros i l Hk.
  - by rewrite Nat.add_0_r, drop_0.
  - destruct l as [|c l]; [simpl in Hk; lia|]. cbn [substitute drop].
    rewrite IH by (simpl in Hk; lia). f_equal. lia.
Qed.

Lemma replace_loop_substitute (d : nat) : forall n i next acc,
  (length input - i <= d)%nat ->
  (next <= i <= length input)%nat ->
  (length input + 2 <= n + i)%nat ->
  replace_loop n rx input repl i next acc
  = acc ++ take (i - next) (drop next input)
        ++ substitute (matches_at rx input) w repl i 0 (drop i input).
Proof.
  induction d as [|d IH]; intros n i next acc Hd Hi Hn;
    (destruct n as [|n]; [lia|]); cbn [replace_loop];
    rewrite exec_from_step by lia.
  - assert (i = length input) as -> by lia.
    rewrite drop_all, Nat.ltb_irrefl. cbn [substitute].
    destruct (exec_at rx input (length input)) as [[e caps]|] eqn:E.
    { apply match_within in E; lia. }
    rewrite app_nil_r. f_equal. rewrite take_ge; [done|]. rewrite length_drop. lia.
  - destruct (Nat.ltb_spec i (length input)) as [Hlt|Hge].
    2:{ assert (i = length input) as -> by lia.
        rewrite drop_all. cbn [substitute].
        destruct (exec_at rx input (length input)) as [[e caps]|] eqn:E.
        { apply match_within in E; lia. }
        rewrite app_nil_r. f_equal. rewrite take_ge; [done|]. rewrite length_drop. lia. }
    destruct (lookup_lt_is_Some_2 input i Hlt) as [c Hc].
    rewrite (drop_S _ _ _ Hc). cbn [substitute]. unfold matches_at at 1.
    destruct (exec_at rx input i) as [[e caps]|] eqn:E.
    + pose proof (match_within _ _ _ (Nat.lt_le_incl _ _ Hlt) E) as Hw.
      apply width_fixed in E as ->.
      destruct (Nat.eqb_spec (i + w) i); [lia|].
      destruct (Nat.leb_spec next i); [|lia].
      rewrite (IH n (i + w)%nat (i + w)%nat) by lia.
      rewrite Nat.sub_diag, take_0, app_nil_l.
      rewrite (substitute_skip (w - 1) (S i)) by (rewrite length_drop; lia).
      rewrite drop_drop. rewrite <- !app_assoc.
      replace (S i + (w - 1))%nat with (i + w)%nat by lia. done.
    + pose proof (IH (S n) (S i) next acc) as IH'.
      cbn [replace_loop] in IH'. rewrite IH' by lia.
      replace (S i - next)%nat with (S (i - next)) by lia.
      rewrite (take_S_r _ _ c).
      * by rewrite <- !app_assoc.
      * rewrite lookup_drop. by replace (next + (i - next))%nat with i by lia.
Qed.

(** Replacing globally is one scan from the left that replaces each match
    it meets and resumes after it. *)
Lemma replace_fixed_width :
  global (reflags rx) = true ->
  replace rx input repl = substitute (matches_at rx input) w repl 0 0 input.
Proof.
  intros Hg. unfold replace. rewrite Hg.
  rewrite (replace_loop_substitute (length input)) by lia.
  by rewrite drop_0.
Qed.

End FixedWidth.

(** ** The end-of-line pre-processor *)

Section EndOfLine.
Import JS Regex RegexSpec Core.

Lemma endOfLine_unfold (text : jsstring) :
  PreProcessors.endOfLine text
  = replace {| source := Seq (Char 45) (Char 10);
               reflags := {| ignoreCase := false; global := true |} |} text [].
Proof. reflexivity. Qed.

Lemma exec_at_hyphen_newline (input : jsstring) (i : nat) :
  exec_at {| source := Seq (Char 45) (Char 10);
             reflags := {| ignoreCase := false; global := true |} |} input i
  = match input !! i, input !! S i with
    | Some c, Some d =>
      if (c =? 45)%N && (d =? 10)%N then Some (i + 2, [])%nat else None
    | _, _ => None
    end.
Proof.
  unfold exec_at. cbn.
  destruct (input !! i) as [c|]; [|done]. cbn.
  destruct (c =? 45)%N; cbn; [|by destruct (input !! S i)].
  destruct (input !! S i) as [d|]; [|done]. cbn.
  destruct (d =? 10)%N; cbn; [|done].
  by replace (i + 2)%nat with (S (S i)) by lia.
Qed.

Lemma remove_hyphen_newline_cons (c d : N) (t : jsstring) :
  remove_hyphen_newline (c :: d :: t)
  = if (c =? 45)%N && (d =? 10)%N then remove_hyphen_newline t
    else c :: remove_hyphen_newline (d :: t).
Proof. reflexivity. Qed.

Lemma substitute_hyphen_newline (input : jsstring) (n : nat) :
  forall (l : jsstring) i,
  (length l <= n)%nat -> drop i input = l ->
  substitute
    (matches_at {| source := Seq (Char 45) (Char 10);
                   reflags := {| ignoreCase := false; global := true |} |} input)
    2 [] i 0 l
  = remove_hyphen_newline l.
Proof.
  induction n as [|n IH]; intros l i Hn Hl.
  { destruct l; [done|simpl in Hn; lia]. }
  destruct l as [|c t]; [done|].
  assert (input !! i = Some c) as Hc.
  { rewrite <- (Nat.add_0_r i), <- lookup_drop, Hl. done. }
  assert (drop (S i) input = t) as Ht.
  { rewrite (drop_S _ _ _ Hc) in Hl. by injection Hl. }
  cbn [substitute]. unfold matches_at at 1.
  rewrite exec_at_hyphen_newline, Hc.
  destruct t as [|d t'].
  - assert (input !! S i = None) as ->.
    { apply lookup_ge_None. apply (f_equal (@length N)) in Ht.
      rewrite length_drop in Ht. simpl in Ht. lia. }
    done.
  - assert (input !! S i = Some d) as Hd.
    { rewrite <- (Nat.add_0_r (S i)), <- lookup_drop, Ht. done. }
    rewrite Hd, remove_hyphen_newline_cons.
    destruct ((c =? 45)%N && (d =? 10)%N).
    + cbn [app substitute Nat.sub]. apply (IH t' (S (S i))); [simpl in Hn; lia|].
      rewrite (drop_S _ _ _ Hd) in Ht. by injection Ht.
    + f_equal. apply (IH (d :: t') (S i)); [simpl in Hn |- *; lia|done].
Qed.

(** The pre-processor is the scan that drops hyphen-newline pairs. *)
Lemma endOfLine_remove (text : jsstring) :
  PreProcessors.endOfLine text = remove_hyphen_newline text.
Proof.
  rewrite endOfLine_unfold, (replace_fixed_width _ _ _ 2).
  - by apply (substitute_hyphen_newline text (length text)).
  - lia.
  - intros i e caps. rewrite exec_at_hyphen_newline.
    destruct (text !! i), (text !! S i); try done.
    destruct (_ && _); [|done]. by intros [= <- _].
  - done.
Qed.

Lemma remove_hyphen_newline_join (n : nat) : forall (a b : jsstring),
  (length a <= n)%nat ->
  remove_hyphen_newline (a ++ [45; 10]%N ++ b)
  = remove_hyphen_newline a ++ remove_hyphen_newline b.
Proof.
  induction n as [|n IH]; intros a b Hn.
  { destruct a; [done|simpl in Hn; lia]. }
  destruct a as [|c [|d a']]; [done| |].
  - cbn [app]. rewrite !remove_hyphen_newline_cons.
    replace ((45 =? 10)%N) with false by done. rewrite andb_false_r.
    done.
  - rewrite <- !app_comm_cons, !remove_hyphen_newline_cons.
    destruct ((c =? 45)%N && (d =? 10)%N).
    + apply (IH a' b). simpl in Hn. lia.
    + rewrite <- app_comm_cons. f_equal. rewrite app_comm_cons.
      apply (IH (d :: a') b). simpl in Hn |- *. lia.
Qed.

(** X8.  Two texts joined by a hyphen and a line feed come out of the
    end-of-line pre-processor joined directly, each pre-processed on its
    own: the pair is removed and nothing else around it changes. *)
Theorem endOfLine_rejoins (a b : jsstring) :
  PreProcessors.endOfLine (a ++ [45; 10]%N ++ b)
  = PreProcessors.endOfLine a ++ PreProcessors.endOfLine b.
Proof.
  rewrite !endOfLine_remove. by apply (remove_hyphen_newline_join (length a)).
Qed.

End EndOfLine.

(** ** Literal patterns: [PreProcessorSub] *)

Section Literal.
Import JS Regex RegexSpec Core.










End Literal.

(** ** The abbreviation pre-processor *)

Section Abbreviations.
Import JS Regex RegexSpec Core.

Lemma matches_dot_elem (icase : bool) (input : jsstring) k (st st' : mstate) :
  st' ∈ matches icase input Dot k true st -> st'.1 = S st.1.
Proof. cbn [matches]. by intros [_ [H _]]%step_elem. Qed.

(** A match of [(?<=x)(?=\.).] is one period. *)
Lemma exec_at_abbreviation (x : regex) (fl : flags) (input : jsstring)
    (i e : nat) (caps : captures) :
  exec_at {| source := Seq (Look true false x) (Seq (Look false false (Char 46)) Dot);
             reflags := fl |} input i = Some (e, caps) ->
  e = S i /\ input !! i = Some 46%N.
Proof.
  unfold exec_at. intros E%head_Some_elem_of. cbn [source reflags] in E.
  apply matches_seq_elem in E as (st1 & [H1 _]%matches_look_elem & E).
  apply matches_seq_elem in E as (st2 & [H2 Hdot]%matches_look_elem & E).
  apply matches_dot_elem in E. cbn [fst snd negb] in *.
  split; [congruence|].
  match type of Hdot with ?m <> [] => destruct m as [|st3 l] eqn:E3 end; [done|].
  assert (st3 ∈ st3 :: l) as H3 by left. rewrite <- E3 in H3.
  apply matches_char_elem in H3 as (_ & ch & Hch & Hcan).
  apply canonicalize_not_letter in Hcan as ->; [|done].
  by rewrite <- H1.
Qed.

Lemma substitute_deletes (P : nat -> bool) (input : jsstring) (x : N) :
  (forall j, P j = true -> input !! j = Some x) ->
  forall (l : jsstring) i, drop i input = l ->
  sublist (substitute P 1 [] i 0 l) l
  /\ List.filter (fun c => negb (c =? x)%N) (substitute P 1 [] i 0 l)
     = List.filter (fun c => negb (c =? x)%N) l.
Proof.
  intros HP. induction l as [|c l IH]; intros i Hl; [done|].
  assert (input !! i = Some c) as Hc.
  { rewrite <- (Nat.add_0_r i), <- lookup_drop, Hl. done. }
  assert (drop (S i) input = l) as Hl'.
  { rewrite (drop_S _ _ _ Hc) in Hl. by injection Hl. }
  destruct (IH (S i) Hl') as [IH1 IH2].
  cbn [substitute Nat.sub app]. destruct (P i) eqn:E.
  - apply HP in E. rewrite Hc in E. injection E as ->. split.
    + by apply sublist_cons.
    + cbn [List.filter]. by rewrite N.eqb_refl.
  - split; [by apply sublist_skip|].
    cbn [List.filter]. by rewrite IH2.
Qed.

Lemma replace_deletes (rx : RegExp) (input : jsstring) (x : N) :
  global (reflags rx) = true ->
  (forall i e caps, exec_at rx input i = Some (e, caps) ->
     e = S i /\ input !! i = Some x) ->
  sublist (replace rx input []) input
  /\ List.filter (fun c => negb (c =? x)%N) (replace rx input [])
     = List.filter (fun c => negb (c =? x)%N) input.
Proof.
  intros Hg Hrx. rewrite (replace_fixed_width _ _ _ 1).
  - apply (substitute_deletes _ input); [|apply drop_0].
    intros j. unfold matches_at.
    destruct (exec_at rx input j) as [[e caps]|] eqn:E; [|done].
    intros _. by apply Hrx in E as [_ E].
  - lia.
  - intros i e caps E. apply Hrx in E as [-> _]. lia.
  - done.
Qed.

(** X10.  The abbreviation pre-processor deletes periods and does nothing
    else: its result is the text with some periods left out, every other
    code unit kept in place and in order. *)
Theorem abbreviations_only_deletes_periods (text : jsstring) :
  sublist (PreProcessors.abbreviations text) text
  /\ List.filter (fun c => negb (c =? 46)%N) (PreProcessors.abbreviations text)
     = List.filter (fun c => negb (c =? 46)%N) text.
Proof.
  unfold PreProcessors.abbreviations, PreProcessorRegex_run, newPreProcessorRegex.
  cbn [regexes repl].
  generalize Symbols.ABBREVIATIONS. intros abbrs. revert text.
  induction abbrs as [|a abbrs IH]; intros text; [done|].
  cbn [List.map fold_left].
  match goal with |- context [replace ?rx text []] =>
    destruct (replace_deletes rx text 46) as [H1 H2];
      [done|intros i e caps; apply exec_at_abbreviation|]
  end.
  destruct (IH (replace
    {| source := source (RegexBuilder [a]
         (fun x => Seq (Look true false x) (Seq (Look false false (Char 46)) Dot)) flag_i);
       reflags := {| ignoreCase := ignoreCase (reflags (RegexBuilder [a]
         (fun x => Seq (Look true false x) (Seq (Look false false (Char 46)) Dot)) flag_i));
                     global := true |} |} text [])) as [IH1 IH2].
  split; [by etrans|by etrans].
Qed.

End Abbreviations.

(** ** The tone-mark pre-processor makes room for the tokenizer *)

Section ToneMarkSpace.
Import JS Regex Core PreProcessors.

Lemma toneMarks_cons (c : N) (text : jsstring) :
  toneMarks (c :: text)
  = (if List.existsb (N.eqb c) Symbols.TONE_MARKS then [c; 32%N] else [c])
    ++ toneMarks text.
Proof.
  rewrite !toneMarks_unfold, !replace_after_mark.
  change (c :: text) with ([c] ++ text).
  rewrite !insert_after_app. f_equal.
  destruct (N.eqb_spec c 63) as [->|H1]; [reflexivity|].
  destruct (N.eqb_spec c 33) as [->|H2]; [reflexivity|].
  destruct (N.eqb_spec c 65311) as [->|H3]; [reflexivity|].
  destruct (N.eqb_spec c 65281) as [->|H4]; [reflexivity|].
  apply N.eqb_neq in H1, H2, H3, H4.
  rewrite !insert_after_other by done.
  unfold Symbols.TONE_MARKS. cbn [List.existsb].
  by rewrite H1, H2, H3, H4.
Qed.

(** X11.  In the text the tone-mark pre-processor returns, every tone mark
    is followed by a space, also the one that ends the text. *)
Theorem toneMarks_followed_by_space (text : jsstring) (i : nat) (c : N) :
  toneMarks text !! i = Some c -> In c Symbols.TONE_MARKS ->
  toneMarks text !! S i = Some 32%N.
Proof.
  intros Hi Hc. revert i Hi.
  induction text as [|c0 text IH]; intros i Hi; [done|].
  rewrite toneMarks_cons in Hi |- *.
  destruct (List.existsb (N.eqb c0) Symbols.TONE_MARKS) eqn:E.
  - destruct i as [|[|i]]; [done| |by apply IH].
    simpl in Hi. injection Hi as <-. revert Hc.
    unfold Symbols.TONE_MARKS. simpl. intuition discriminate.
  - destruct i as [|i]; [|by apply IH].
    simpl in Hi. injection Hi as ->.
    assert (List.existsb (N.eqb c) Symbols.TONE_MARKS = true) as E'; [|congruence].
    apply existsb_exists. exists c. split; [done|apply N.eqb_refl].
Qed.

Lemma toneMarks_followed_by_space_witness :
  toneMarks (str "So?") !! 3%nat = Some 32%N.
Proof.
  apply (toneMarks_followed_by_space (str "So?") 2 63).
  - reflexivity.
  - simpl. tauto.
Defined.

End ToneMarkSpace.

(** ** Language tags *)

Section LangFacts.
Import Lang.

(** X12.  [fallbackDeprecatedLang] returns the tag it is given or one of
    the six fallback tags, and applying it twice changes nothing more: a
    fallback tag is its own fallback.  Assumes of [toLowerCase] what it
    does on ASCII strings. *)
Theorem fallbackDeprecatedLang_idempotent (toLowerCase : jsstring -> jsstring)
    (lang : jsstring) :
  (forall s, isASCII s = true -> toLowerCase s = lowerASCII s) ->
  (fallbackDeprecatedLang toLowerCase lang = lang
   \/ In (fallbackDeprecatedLang toLowerCase lang) (List.map fst deprecated))
  /\ fallbackDeprecatedLang toLowerCase
       (fallbackDeprecatedLang toLowerCase lang)
     = fallbackDeprecatedLang toLowerCase lang.
Proof.
  intros Hlower.
  assert (forall fb, In fb (List.map fst deprecated) ->
            fallbackDeprecatedLang toLowerCase fb = fb) as Hfix.
  { intros fb Hfb. unfold fallbackDeprecatedLang.
    simpl in Hfb.
    repeat (destruct Hfb as [<-|Hfb]; [rewrite Hlower by reflexivity; reflexivity|]).
    done. }
  assert (fallbackDeprecatedLang toLowerCase lang = lang
          \/ In (fallbackDeprecatedLang toLowerCase lang) (List.map fst deprecated))
    as Hcases.
  { unfold fallbackDeprecatedLang.
    destruct (List.find _ deprecated) as [[fb deps]|] eqn:E; [|by left].
    apply find_some in E as [E _].
    right. apply in_map_iff. by exists (fb, deps). }
  split; [done|].
  destruct Hcases as [Hsame|Hfb]; [by rewrite !Hsame|by apply Hfix].
Qed.

Lemma fallbackDeprecatedLang_idempotent_witness :
  (fallbackDeprecatedLang lowerASCII (str "en-GB") = str "en-GB"
   \/ In (fallbackDeprecatedLang lowerASCII (str "en-GB")) (List.map fst deprecated))
  /\ fallbackDeprecatedLang lowerASCII (fallbackDeprecatedLang lowerASCII (str "en-GB"))
     = fallbackDeprecatedLang lowerASCII (str "en-GB").
Proof.
  apply (fallbackDeprecatedLang_idempotent lowerASCII (str "en-GB")).
  reflexivity.
Defined.

End LangFacts.

(** ** The request body *)

Section RpcFacts.
Import Rpc.

Ltac literal :=
  repeat match goal with
         | |- context [str ?s] =>
           let v := eval vm_compute in (str s) in change (str s) with v
         end;
  repeat (apply Forall_cons; [first [assumption | lia]|]); apply Forall_nil.

Lemma pair_ind (P : jsstring -> Prop) :
  P [] ->
  (forall c, P [c]) ->
  (forall c d rest, P (d :: rest) -> P rest -> P (c :: d :: rest)) ->
  forall s, P s.
Proof.
  intros Hnil Hone Hcons s.
  assert (P s /\ forall c, P (c :: s)) as [H _]; [|exact H].
  induction s as [|d rest [IH1 IH2]]; [by split|].
  split; [apply IH2|]. intros c. apply Hcons; [apply IH2|apply IH1].
Qed.

Lemma isWellFormed_plain_app (a b : jsstring) :
  plain a -> isWellFormed (a ++ b) = isWellFormed b.
Proof.
  induction 1 as [|c a Hc _ IH]; [done|].
  cbn [app isWellFormed]. unfold isLeadingSurrogate, isTrailingSurrogate.
  destruct (N.leb_spec 55296 c); [lia|].
  destruct (N.leb_spec 56320 c); [lia|]. by simpl.
Qed.

Lemma isWellFormed_plain (a : jsstring) : plain a -> isWellFormed a = true.
Proof.
  intros H. rewrite <- (app_nil_r a). by rewrite isWellFormed_plain_app.
Qed.

Lemma hexDigit_lower (d : N) : (d < 16)%N -> (hexDigit false d < 128)%N.
Proof. unfold hexDigit. intros H. destruct (N.ltb_spec d 10); lia. Qed.

Lemma hexDigit_upper (d : N) : (d < 16)%N -> uriUnescaped (hexDigit true d) = true.
Proof.
  intros H. unfold hexDigit, uriUnescaped.
  destruct (N.ltb_spec d 10).
  - replace ((48 <=? 48 + d) && (48 + d <=? 57))%N with true; [by rewrite orb_true_r|].
    symmetry. apply andb_true_iff. split; apply N.leb_le; lia.
  - replace ((65 <=? 55 + d) && (55 + d <=? 90))%N with true; [done|].
    symmetry. apply andb_true_iff. split; apply N.leb_le; lia.
Qed.

Lemma UnicodeEscape_plain (c : N) : plain (UnicodeEscape c).
Proof.
  unfold plain, UnicodeEscape.
  repeat apply Forall_cons; try apply Forall_nil; try lia;
    (eapply N.lt_trans; [apply hexDigit_lower, N.mod_lt|]); lia.
Qed.

Lemma UnicodeEscape_codeUnits (c : N) : codeUnits (UnicodeEscape c).
Proof.
  eapply List.Forall_impl; [|apply UnicodeEscape_plain]. simpl. intros; lia.
Qed.

Lemma quoteUnit_plain (c : N) : (c < 55296)%N -> plain (quoteUnit c).
Proof.
  intros H. unfold quoteUnit.
  repeat (match goal with |- context [if ?b then _ else _] => destruct b end);
    first [apply UnicodeEscape_plain | literal].
Qed.

Lemma quoteUnit_codeUnits (c : N) : (c < 65536)%N -> codeUnits (quoteUnit c).
Proof.
  intros H. unfold quoteUnit.
  repeat (match goal with |- context [if ?b then _ else _] => destruct b end);
    first [apply UnicodeEscape_codeUnits | literal].
Qed.

(** [JSON.stringify] never leaves a surrogate on its own. *)
Lemma quoteBody_wellFormed (s b : jsstring) :
  isWellFormed (quoteBody s ++ b) = isWellFormed b.
Proof.
  induction s as [|c|c d rest IH1 IH2] using pair_ind.
  - done.
  - cbn [quoteBody]. destruct (isLeadingSurrogate c) eqn:E1.
    { apply isWellFormed_plain_app, UnicodeEscape_plain. }
    destruct (isTrailingSurrogate c) eqn:E2.
    { rewrite app_nil_r. apply isWellFormed_plain_app, UnicodeEscape_plain. }
    rewrite app_nil_r. destruct (N.lt_ge_cases c 55296) as [Hc|Hc].
    { by apply isWellFormed_plain_app, quoteUnit_plain. }
    unfold quoteUnit.
    repeat (match goal with
            | |- context [if (?x =? ?y)%N then _ else _] =>
              destruct (N.eqb_spec x y); [lia|]
            | |- context [if (?x <? ?y)%N then _ else _] =>
              destruct (N.ltb_spec x y); [lia|]
            end).
    cbn [app isWellFormed]. by rewrite E1, E2.
  - change (quoteBody (c :: d :: rest))
      with (if isLeadingSurrogate c then
              if isTrailingSurrogate d then c :: d :: quoteBody rest
              else UnicodeEscape c ++ quoteBody (d :: rest)
            else if isTrailingSurrogate c then UnicodeEscape c ++ quoteBody (d :: rest)
            else quoteUnit c ++ quoteBody (d :: rest)).
    destruct (isLeadingSurrogate c) eqn:E1.
    { destruct (isTrailingSurrogate d) eqn:E2.
      - cbn [app isWellFormed]. by rewrite E1, E2.
      - rewrite <- app_assoc.
        by rewrite isWellFormed_plain_app by apply UnicodeEscape_plain. }
    destruct (isTrailingSurrogate c) eqn:E2.
    { rewrite <- app_assoc.
      by rewrite isWellFormed_plain_app by apply UnicodeEscape_plain. }
    rewrite <- app_assoc.
    destruct (N.lt_ge_cases c 55296) as [Hc|Hc].
    { by rewrite isWellFormed_plain_app by by apply quoteUnit_plain. }
    unfold quoteUnit.
    repeat (match goal with
            | |- context [if (?x =? ?y)%N then _ else _] =>
              destruct (N.eqb_spec x y); [lia|]
            | |- context [if (?x <? ?y)%N then _ else _] =>
              destruct (N.ltb_spec x y); [lia|]
            end).
    cbn [app isWellFormed]. by rewrite E1, E2.
Qed.

Lemma quoteBody_codeUnits (s : jsstring) : codeUnits s -> codeUnits (quoteBody s).
Proof.
  induction s as [|c|c d rest IH1 IH2] using pair_ind; intros Hs.
  - apply Forall_nil.
  - apply Forall_cons_iff in Hs as [Hc _]. cbn [quoteBody].
    destruct (isLeadingSurrogate c); [apply UnicodeEscape_codeUnits|].
    destruct (isTrailingSurrogate c); rewrite app_nil_r;
      [apply UnicodeEscape_codeUnits|by apply quoteUnit_codeUnits].
  - pose proof Hs as Hs'.
    apply Forall_cons_iff in Hs' as [Hc Hs'].
    pose proof Hs' as Hs''.
    apply Forall_cons_iff in Hs'' as [Hd Hs''].
    change (quoteBody (c :: d :: rest))
      with (if isLeadingSurrogate c then
              if isTrailingSurrogate d then c :: d :: quoteBody rest
              else UnicodeEscape c ++ quoteBody (d :: rest)
            else if isTrailingSurrogate c then UnicodeEscape c ++ quoteBody (d :: rest)
            else quoteUnit c ++ quoteBody (d :: rest)).
    destruct (isLeadingSurrogate c).
    { destruct (isTrailingSurrogate d).
      - repeat apply Forall_cons; auto. by apply IH2.
      - apply Forall_app. split; [apply UnicodeEscape_codeUnits|by apply IH1]. }
    destruct (isTrailingSurrogate c).
    { apply Forall_app. split; [apply UnicodeEscape_codeUnits|by apply IH1]. }
    apply Forall_app. split; [by apply quoteUnit_codeUnits|by apply IH1].
Qed.

Lemma QuoteJSONString_wellFormed (s b : jsstring) :
  isWellFormed (QuoteJSONString s ++ b) = isWellFormed b.
Proof.
  unfold QuoteJSONString. rewrite <- !app_assoc.
  rewrite (isWellFormed_plain_app [34%N]) by literal.
  rewrite quoteBody_wellFormed.
  apply (isWellFormed_plain_app [34%N]). literal.
Qed.

Lemma QuoteJSONString_codeUnits (s : jsstring) :
  codeUnits s -> codeUnits (QuoteJSONString s).
Proof.
  intros H. unfold QuoteJSONString.
  apply Forall_app. split; [literal|].
  apply Forall_app. split; [by apply quoteBody_codeUnits|literal].
Qed.

Lemma uriUnescaped_ascii (c : N) : uriUnescaped c = true -> (c < 128)%N.
Proof.
  unfold uriUnescaped.
  change (str "_-.!~*'()") with [95; 45; 46; 33; 126; 42; 39; 40; 41]%N.
  cbn [List.existsb].
  rewrite !orb_true_iff, !andb_true_iff, !N.leb_le, !N.eqb_eq. lia.
Qed.

Lemma surrogate_bounds (c : N) :
  (isLeadingSurrogate c = true <-> 55296 <= c <= 56319)%N
  /\ (isTrailingSurrogate c = true <-> 56320 <= c <= 57343)%N.
Proof.
  unfold isLeadingSurrogate, isTrailingSurrogate.
  rewrite !andb_true_iff, !N.leb_le. tauto.
Qed.

Lemma percent_safe (octet : N) : (octet < 256)%N -> Forall urlSafe (percent octet).
Proof.
  intros H. unfold percent.
  repeat apply Forall_cons; [by right| | |apply Forall_nil];
    left; apply hexDigit_upper.
  - apply N.Div0.div_lt_upper_bound. lia.
  - by apply N.mod_lt.
Qed.

Lemma utf8_octets (cp : N) :
  (cp < 1114112)%N -> Forall (fun o => o < 256)%N (utf8 cp).
Proof.
  intros H. unfold utf8.
  repeat (match goal with
          | |- context [if (?x <? ?y)%N then _ else _] =>
            destruct (N.ltb_spec x y)
          end);
    repeat (apply Forall_cons; [|]); try apply Forall_nil;
    try (pose proof (N.mod_lt cp 64); pose proof (N.mod_lt (cp / 64) 64);
         pose proof (N.mod_lt (cp / 4096) 64); lia).
  - assert (cp / 64 < 32)%N by (apply N.Div0.div_lt_upper_bound; lia). lia.
  - assert (cp / 4096 < 16)%N by (apply N.Div0.div_lt_upper_bound; lia). lia.
  - assert (cp / 262144 < 8)%N by (apply N.Div0.div_lt_upper_bound; lia). lia.
Qed.

Lemma escapeCodePoint_safe (cp : N) :
  (cp < 1114112)%N -> Forall urlSafe (escapeCodePoint cp).
Proof.
  intros H. unfold escapeCodePoint.
  induction (utf8_octets cp H) as [|o l Ho _ IH]; [apply Forall_nil|].
  cbn [List.flat_map]. apply Forall_app. split; [by apply percent_safe|done].
Qed.

(** [encodeURIComponent] returns on every well-formed string, and what it
    returns needs no further escaping. *)
Lemma encodeURIComponent_wellFormed (s : jsstring) :
  codeUnits s -> isWellFormed s = true ->
  exists r, encodeURIComponent s = Some r /\ Forall urlSafe r.
Proof.
  induction s as [|c|c d rest IH1 IH2] using pair_ind; intros Hs Hwf.
  - exists []. split; [done|apply Forall_nil].
  - apply Forall_cons_iff in Hs as [Hc _].
    cbn [encodeURIComponent isWellFormed] in *.
    destruct (uriUnescaped c) eqn:Eu.
    { exists [c]. split; [done|]. apply Forall_cons; [by left|apply Forall_nil]. }
    destruct (isLeadingSurrogate c); [done|].
    destruct (isTrailingSurrogate c); [done|].
    exists (escapeCodePoint c ++ []). split; [done|].
    rewrite app_nil_r. apply escapeCodePoint_safe. lia.
  - pose proof Hs as Hs'.
    apply Forall_cons_iff in Hs' as [Hc Hs'].
    pose proof Hs' as Hs''.
    apply Forall_cons_iff in Hs'' as [Hd Hs''].
    change (encodeURIComponent (c :: d :: rest))
      with (if uriUnescaped c then
              r ← encodeURIComponent (d :: rest); Some (c :: r)
            else if isLeadingSurrogate c then
              if isTrailingSurrogate d then
                r ← encodeURIComponent rest;
                Some (escapeCodePoint (pairCodePoint c d) ++ r)
              else None
            else if isTrailingSurrogate c then None
            else r ← encodeURIComponent (d :: rest); Some (escapeCodePoint c ++ r)).
    change (isWellFormed (c :: d :: rest))
      with (if isLeadingSurrogate c then
              isTrailingSurrogate d && isWellFormed rest
            else negb (isTrailingSurrogate c) && isWellFormed (d :: rest)) in Hwf.
    destruct (surrogate_bounds c) as [Hlead Htrail].
    destruct (surrogate_bounds d) as [_ Htrail'].
    destruct (uriUnescaped c) eqn:Eu.
    { apply uriUnescaped_ascii in Eu as Hascii.
      destruct (isLeadingSurrogate c); [apply proj1 in Hlead; specialize (Hlead eq_refl); lia|].
      destruct (isTrailingSurrogate c); [done|].
      destruct (IH1 Hs' Hwf) as (r & -> & Hr).
      exists (c :: r). split; [done|]. apply Forall_cons; [by left|done]. }
    destruct (isLeadingSurrogate c).
    { destruct (isTrailingSurrogate d); [|done].
      destruct (IH2 Hs'' Hwf) as (r & -> & Hr).
      eexists. split; [done|]. apply Forall_app. split; [|done].
      apply escapeCodePoint_safe. unfold pairCodePoint.
      apply proj1 in Hlead, Htrail'.
      specialize (Hlead eq_refl). specialize (Htrail' eq_refl). lia. }
    destruct (isTrailingSurrogate c); [done|].
    destruct (IH1 Hs' Hwf) as (r & -> & Hr).
    eexists. split; [done|]. apply Forall_app. split; [|done].
    apply escapeCodePoint_safe. lia.
Qed.

Lemma plain_codeUnits (s : jsstring) : plain s -> codeUnits s.
Proof. apply List.Forall_impl. intros; lia. Qed.

Lemma escapedRpc_codeUnits (this : TTS.gTTS) (text : jsstring) :
  codeUnits text -> codeUnits (TTS.lang this) -> codeUnits (escapedRpc this text).
Proof.
  intros Htext Hlang. unfold escapedRpc. cbn [stringify].
  destruct (TTS.speed this);
    repeat match goal with
           | |- codeUnits (_ ++ _) => apply Forall_app; split
           | |- Forall _ (_ ++ _) => apply Forall_app; split
           | |- codeUnits (QuoteJSONString _) => apply QuoteJSONString_codeUnits
           | |- Forall _ (QuoteJSONString _) => apply QuoteJSONString_codeUnits
           | |- _ (str _) => apply plain_codeUnits; literal
           | |- codeUnits GOOGLE_TTS_RPC =>
             unfold GOOGLE_TTS_RPC; apply plain_codeUnits; literal
           | _ => assumption
           end.
Qed.

Lemma escapedRpc_wellFormed (this : TTS.gTTS) (text : jsstring) :
  isWellFormed (escapedRpc this text) = true.
Proof.
  unfold escapedRpc. cbn [stringify].
  rewrite <- !app_assoc.
  repeat first
    [ rewrite QuoteJSONString_wellFormed
    | rewrite (isWellFormed_plain_app (str _)) by literal ].
  apply isWellFormed_plain. literal.
Qed.

(** X13.  [packageRpc] does not throw, whatever the chunk and the language
    tag, surrogates without a partner included: [JSON.stringify] escapes
    them before [encodeURIComponent] sees them.  The body it returns is
    [f.req=], a payload made of unreserved characters and percent escapes
    only, and a final [&]. *)
Theorem packageRpc_never_throws (this : TTS.gTTS) (text : jsstring) :
  codeUnits text -> codeUnits (TTS.lang this) ->
  exists payload,
    packageRpc this text = Some (str "f.req=" ++ payload ++ str "&")
    /\ Forall urlSafe payload.
Proof.
  intros Htext Hlang. unfold packageRpc.
  destruct (encodeURIComponent_wellFormed (escapedRpc this text))
    as (r & -> & Hr).
  - by apply escapedRpc_codeUnits.
  - apply escapedRpc_wellFormed.
  - by exists r.
Qed.

Lemma packageRpc_never_throws_witness :
  exists payload,
    packageRpc (TTS.default_gTTS (str "hi")) [104; 55357; 105]%N
    = Some (str "f.req=" ++ payload ++ str "&")
    /\ Forall urlSafe payload.
Proof.
  apply (packageRpc_never_throws (TTS.default_gTTS (str "hi")) [104; 55357; 105]%N).
  - unfold codeUnits. repeat (apply Forall_cons; [lia|]). apply Forall_nil.
  - unfold codeUnits. cbn [TTS.lang TTS.default_gTTS].
    change (str "en") with [101; 110]%N.
    repeat (apply Forall_cons; [lia|]). apply Forall_nil.
Defined.

End RpcFacts.

(** ** Where the default tokenizer matches *)

Section TokenizerSites.
Import JS Regex RegexSpec Core TTS TokenizerSpec.

Lemma head_app {A} (l1 l2 : list A) :
  head (l1 ++ l2) = match head l1 with Some x => Some x | None => head l2 end.
Proof. by destruct l1. Qed.

Lemma head_group {A B} (g : A -> B) (l : list A) :
  head (x ← l; [g x]) = g <$> head l.
Proof. by destruct l. Qed.

Lemma canonicalize_eqb (icase : bool) (ch c : N) :
  isLetter c = false ->
  N.eqb (canonicalize icase ch) (canonicalize icase c) = N.eqb ch c.
Proof.
  intros Hc. destruct (N.eqb_spec ch c) as [->|Hne]; [apply N.eqb_refl|].
  apply N.eqb_neq. intros H. by apply canonicalize_not_letter in H.
Qed.

Lemma existsb_ext_in {A} (P Q : A -> bool) (l : list A) :
  (forall x, In x l -> P x = Q x) -> List.existsb P l = List.existsb Q l.
Proof.
  induction l as [|x l IH]; intros H; [done|]. simpl.
  rewrite (H x) by by left. rewrite IH; [done|]. intros y Hy. apply H. by right.
Qed.

(** The pattern a [RegexBuilder] makes of single code units, when each
    alternative either fails or reaches the one state [st']. *)
Lemma builder_head (icase : bool) (input : jsstring) (f : regex -> regex)
    (P : N -> bool) (st st' : mstate) (cs : jsstring) : forall k,
  cs <> [] ->
  (forall c k', In c cs ->
     matches icase input (f (Char c)) k' true st = if P c then [st'] else []) ->
  head (matches icase input
          (alternation (List.map (fun arg => f (lit arg)) (chars cs))) k true st)
  = if List.existsb P cs then Some st' else None.
Proof.
  induction cs as [|c cs IH]; intros k Hne H; [done|].
  destruct cs as [|c' cs].
  - simpl. rewrite (H c k) by by left. by destruct (P c).
  - change (alternation (List.map (fun arg => f (lit arg)) (chars (c :: c' :: cs))))
      with (Alt (f (Char c))
              (alternation (List.map (fun arg => f (lit arg)) (chars (c' :: cs))))).
    cbn [matches]. rewrite head_app, (H c k) by by left.
    cbn [List.existsb]. destruct (P c); [done|].
    rewrite IH; [done|done|]. intros c0 k' Hc0. apply H. by right.
Qed.

Lemma bind_one {A B} (f : A -> list B) (a : A) : ([a] ≫= f) = f a.
Proof. simpl. apply app_nil_r. Qed.

Section Cases.
Variable icase : bool.
Variable input : jsstring.


Lemma step_forward (ok : N -> bool) (p : nat) (caps : captures) :
  step input true ok (p, caps)
  = if at_index input p ok then [(S p, caps)] else [].
Proof. unfold step, at_index. by destruct (input !! p). Qed.

Lemma step_backward (ok : N -> bool) (p : nat) (caps : captures) :
  step input false ok (p, caps)
  = match p with
    | S p' => if at_index input p' ok then [(p', caps)] else []
    | O => []
    end.
Proof. unfold step, at_index. destruct p as [|p']; [done|]. by destruct (input !! p'). Qed.

Lemma toneMarks_alternative (m : N) (k q : nat) (caps : captures) :
  matches icase input (Seq (Look true false (Char m)) Dot) k true (q, caps)
  = if before input q (same icase m)
       && at_index input q (fun ch => negb (isLineTerminator ch))
    then [(S q, caps)] else [].
Proof.
  cbn [matches ngroups negb]. rewrite step_backward. unfold before.
  fold (same icase m).
  destruct q as [|p]; [done|].
  destruct (at_index input p (same icase m)); [|done].
  cbn [fst andb]. by rewrite bind_one, step_forward.
Qed.

Lemma seq_forward (r1 r2 : regex) (k : nat) (st : mstate) :
  matches icase input (Seq r1 r2) k true st
  = (st1 ← matches icase input r1 k true st;
     matches icase input r2 (k + ngroups r1) true st1).
Proof. reflexivity. Qed.

Lemma dotted_behind (k q : nat) (caps : captures) :
  matches icase input (Look true true (Seq (Char 46) (Class [(97, 122)]%N))) k true
    (q, caps)
  = if match q with
       | S (S p) => at_index input p (same icase 46)
                    && at_index input (S p) (class_matches icase [(97, 122)]%N)
       | _ => false
       end
    then [] else [(q, caps)].
Proof.
  cbn [matches ngroups negb]. rewrite step_backward.
  destruct q as [|[|p]]; [done| |].
  - destruct (at_index input 0 _); [|done].
    by rewrite bind_one, step_backward.
  - destruct (at_index input (S p) _); [|by rewrite andb_false_r].
    rewrite bind_one, step_backward. fold (same icase 46). rewrite andb_true_r.
    by destruct (at_index input p (same icase 46)).
Qed.

Lemma periodComma_alternative (x : N) (k q : nat) (caps : captures) :
  matches icase input
    (Seq (Look true true (Seq (Char 46) (Class [(97, 122)]%N)))
       (Seq (Char x) (Char 32))) k true (q, caps)
  = if negb (match q with
             | S (S p) => at_index input p (same icase 46)
                          && at_index input (S p) (class_matches icase [(97, 122)]%N)
             | _ => false
             end)
       && at_index input q (same icase x) && at_index input (S q) (same icase 32)
    then [(S (S q), caps)] else [].
Proof.
  rewrite seq_forward, dotted_behind.
  destruct (match q with S (S p) => _ | _ => false end); [done|].
  rewrite bind_one, seq_forward. cbn [matches ngroups negb andb].
  rewrite step_forward. fold (same icase x).
  destruct (at_index input q (same icase x)); [|done].
  rewrite bind_one, step_forward. by fold (same icase 32).
Qed.

Lemma colon_alternative (x : N) (k q : nat) (caps : captures) :
  matches icase input (Seq (Look true true (Class [(48, 57)]%N)) (Char x)) k true
    (q, caps)
  = if negb (before input q (class_matches icase [(48, 57)]%N))
       && at_index input q (same icase x)
    then [(S q, caps)] else [].
Proof.
  cbn [matches ngroups negb]. rewrite step_backward. unfold before.
  destruct q as [|p].
  - cbn [negb andb]. by rewrite bind_one, step_forward.
  - destruct (at_index input p _); [done|].
    cbn [negb andb]. by rewrite bind_one, step_forward.
Qed.

Lemma otherPunctuation_alternative (x : N) (k q : nat) (caps : captures) :
  matches icase input (Char x) k true (q, caps)
  = if at_index input q (same icase x) then [(S q, caps)] else [].
Proof. cbn [matches]. by rewrite step_forward. Qed.

Lemma alt_head (r1 r2 : regex) (k : nat) (st : mstate) :
  head (matches icase input (Alt r1 r2) k true st)
  = match head (matches icase input r1 k true st) with
    | Some m => Some m
    | None => head (matches icase input r2 (k + ngroups r1) true st)
    end.
Proof. cbn [matches]. apply head_app. Qed.

Lemma group_head (r : regex) (k q : nat) (caps : captures) :
  head (matches icase input (Group r) k true (q, caps))
  = match head (matches icase input r (S k) true (q, caps)) with
    | Some (e, c) =>
      Some (e, <[k := Some (take (Nat.max q e - Nat.min q e)
                              (drop (Nat.min q e) input))]> c)
    | None => None
    end.
Proof.
  cbn [matches fst].
  by destruct (matches icase input r (S k) true (q, caps)) as [|[e c] l].
Qed.

Lemma at_index_ext (f g : N -> bool) (p : nat) :
  (forall ch, f ch = g ch) -> at_index input p f = at_index input p g.
Proof. intros H. unfold at_index. by destruct (input !! p). Qed.

Lemma existsb_false {A} (l : list A) : List.existsb (fun _ => false) l = false.
Proof. by induction l. Qed.

Lemma existsb_at_index (cs : jsstring) (p : nat) :
  forallb (fun c => negb (isLetter c)) cs = true ->
  List.existsb (fun x => at_index input p (same icase x)) cs
  = at_index input p (member cs).
Proof.
  intros Hcs. unfold at_index.
  destruct (input !! p) as [ch|]; [|apply existsb_false].
  apply existsb_ext_in. intros x Hx. apply canonicalize_eqb.
  rewrite forallb_forall in Hcs. specialize (Hcs x Hx). by destruct (isLetter x).
Qed.

Lemma existsb_before (cs : jsstring) (q : nat) :
  forallb (fun c => negb (isLetter c)) cs = true ->
  List.existsb (fun x => before input q (same icase x)) cs
  = before input q (member cs).
Proof.
  intros Hcs. unfold before. destruct q as [|p]; [apply existsb_false|].
  by apply existsb_at_index.
Qed.

Lemma existsb_andb_r {A} (f : A -> bool) (b : bool) (l : list A) :
  List.existsb (fun x => f x && b) l = List.existsb f l && b.
Proof.
  induction l as [|x l IH]; [done|]. cbn [List.existsb]. rewrite IH.
  by destruct (f x), b, (List.existsb f l).
Qed.

Lemma existsb_andb_l {A} (f : A -> bool) (b : bool) (l : list A) :
  List.existsb (fun x => b && f x) l = b && List.existsb f l.
Proof.
  destruct b; [done|]. cbn [andb]. apply existsb_false.
Qed.

Lemma same_not_letter (c : N) (p : nat) :
  isLetter c = false ->
  at_index input p (same icase c) = at_index input p (fun ch => ch =? c)%N.
Proof. intros Hc. apply at_index_ext. intros ch. by apply canonicalize_eqb. Qed.

End Cases.

Lemma class_letters (c : N) : class_matches true [(97, 122)]%N c = isLetter c.
Proof.
  unfold class_matches, in_ranges, isLetter, toLowerASCII, toUpperASCII.
  cbn [List.existsb].
  destruct (N.leb_spec 97 c), (N.leb_spec c 122), (N.leb_spec 65 c),
    (N.leb_spec c 90); cbn [andb orb]; try lia;
    repeat match goal with
           | |- context [(?a <=? ?b)%N] => destruct (N.leb_spec a b); try lia
           end; reflexivity.
Qed.

Lemma class_digits (c : N) : class_matches true [(48, 57)]%N c = isDigit c.
Proof.
  unfold class_matches, in_ranges, isDigit, toLowerASCII, toUpperASCII.
  cbn [List.existsb].
  destruct (N.leb_spec 48 c), (N.leb_spec c 57), (N.leb_spec 65 c),
    (N.leb_spec c 90), (N.leb_spec 97 c), (N.leb_spec c 122);
    cbn [andb orb]; try lia;
    repeat match goal with
           | |- context [(?a <=? ?b)%N] => destruct (N.leb_spec a b); try lia
           end; reflexivity.
Qed.

Section Heads.
Variable input : jsstring.
Variable q : nat.
Variable caps : captures.

Lemma toneMarks_head (k : nat) :
  head (matches true input (source TokenizerCases.toneMarks) k true (q, caps))
  = if toneMarks_site input q then Some (S q, caps) else None.
Proof.
  change (source TokenizerCases.toneMarks)
    with (alternation (List.map (fun arg => (fun x => Seq (Look true false x) Dot) (lit arg))
                         (chars Symbols.TONE_MARKS))).
  rewrite (builder_head true input _
             (fun m => before input q (TokenizerSpec.same true m)
                       && at_index input q (fun ch => negb (isLineTerminator ch)))
             (q, caps) (S q, caps));
    [|done|intros; apply toneMarks_alternative].
  by rewrite existsb_andb_r, existsb_before.
Qed.

Lemma periodComma_head (k : nat) :
  head (matches true input (source TokenizerCases.periodComma) k true (q, caps))
  = if periodComma_site input q then Some (S (S q), caps) else None.
Proof.
  change (source TokenizerCases.periodComma)
    with (alternation
            (List.map
               (fun arg => (fun x => Seq (Look true true (Seq (Char 46) (Class [(97, 122)]%N)))
                                       (Seq x (Char 32))) (lit arg))
               (chars Symbols.PERIOD_COMMA))).
  rewrite (builder_head true input _
             (fun x => negb (match q with
                             | S (S p) =>
                               at_index input p (TokenizerSpec.same true 46)
                               && at_index input (S p) (class_matches true [(97, 122)]%N)
                             | _ => false
                             end)
                       && at_index input q (TokenizerSpec.same true x)
                       && at_index input (S q) (TokenizerSpec.same true 32))
             (q, caps) (S (S q), caps));
    [|done|intros; apply periodComma_alternative].
  rewrite existsb_andb_r, existsb_andb_l, existsb_at_index by done.
  unfold periodComma_site, dotted.
  rewrite (same_not_letter true input 32) by done.
  destruct q as [|[|p]]; [done|done|].
  rewrite (same_not_letter true input 46) by done.
  by rewrite (at_index_ext input _ _ (S p) class_letters).
Qed.

Lemma colon_head (k : nat) :
  head (matches true input (source TokenizerCases.colon) k true (q, caps))
  = if colon_site input q then Some (S q, caps) else None.
Proof.
  change (source TokenizerCases.colon)
    with (alternation
            (List.map
               (fun arg => (fun x => Seq (Look true true (Class [(48, 57)]%N)) x) (lit arg))
               (chars Symbols.COLON))).
  rewrite (builder_head true input _
             (fun x => negb (before input q (class_matches true [(48, 57)]%N))
                       && at_index input q (TokenizerSpec.same true x))
             (q, caps) (S q, caps));
    [|done|intros; apply colon_alternative].
  rewrite existsb_andb_l, existsb_at_index by done.
  unfold colon_site, before.
  rewrite (at_index_ext input (member Symbols.COLON) (fun ch => ch =? 58)%N)
    by (intros ch; apply orb_false_r).
  destruct q as [|p]; [done|].
  by rewrite (at_index_ext input _ _ p class_digits).
Qed.

Lemma otherPunctuation_head (k : nat) :
  head (matches true input (source TokenizerCases.otherPunctuation) k true (q, caps))
  = if otherPunctuation_site input q then Some (S q, caps) else None.
Proof.
  change (source TokenizerCases.otherPunctuation)
    with (alternation (List.map (fun arg => (fun x => x) (lit arg)) (chars OTHER_PUNC))).
  rewrite (builder_head true input _
             (fun x => at_index input q (TokenizerSpec.same true x))
             (q, caps) (S q, caps));
    [|done|intros; apply otherPunctuation_alternative].
  by rewrite existsb_at_index.
Qed.

End Heads.

(** The sticky match of the combined pattern, computed from the code units
    around the index. *)
Lemma defaultTokenizer_exec_spec (input : jsstring) (q : nat) :
  exec_at defaultTokenizer input q = exec_spec input q.
Proof.
  unfold exec_at.
  change (ignoreCase (reflags defaultTokenizer)) with true.
  change (ngroups (source defaultTokenizer)) with 4%nat.
  change (source defaultTokenizer)
    with (Alt (Group (source TokenizerCases.toneMarks))
            (Alt (Group (source TokenizerCases.periodComma))
               (Alt (Group (source TokenizerCases.colon))
                  (Group (source TokenizerCases.otherPunctuation))))).
  unfold exec_spec, capture_of.
  rewrite alt_head, group_head, toneMarks_head.
  destruct (toneMarks_site input q).
  { by rewrite Nat.max_r, Nat.min_l by lia. }
  rewrite alt_head, group_head, periodComma_head.
  destruct (periodComma_site input q).
  { by rewrite Nat.max_r, Nat.min_l by lia. }
  rewrite alt_head, group_head, colon_head.
  destruct (colon_site input q).
  { by rewrite Nat.max_r, Nat.min_l by lia. }
  rewrite group_head, otherPunctuation_head.
  destruct (otherPunctuation_site input q); [|done].
  by rewrite Nat.max_r, Nat.min_l by lia.
Qed.

(** X14.  What the combined pattern of the default tokenizer matches at
    an index is decided by the code units around it: the code unit after a
    tone mark (unless a line terminator); else a period or comma with the
    space that follows, unless a period and a letter come right before;
    else a colon that does not follow a digit; else one of the other
    punctuation marks.  The matched text is the only capture that is not
    [undefined]. *)
Theorem defaultTokenizer_match_sites (input : jsstring) (q : nat) :
  exec_at defaultTokenizer input q = exec_spec input q.
Proof. apply defaultTokenizer_exec_spec. Qed.

Lemma at_index_none (input : jsstring) (p : nat) (ok : N -> bool) :
  Forall (fun c => ok c = false) input -> at_index input p ok = false.
Proof.
  intros H. unfold at_index. destruct (input !! p) as [ch|] eqn:E; [|done].
  rewrite List.Forall_forall in H. apply H.
  apply list_elem_of_In. by eapply list_elem_of_lookup_2.
Qed.

Lemma member_In (cs : jsstring) (c : N) : member cs c = true <-> In c cs.
Proof.
  unfold member. rewrite existsb_exists. split.
  - by intros (x & Hx & ->%N.eqb_eq).
  - intros H. exists c. split; [done|apply N.eqb_refl].
Qed.

(** X15.  Numbers, times and the like are not cut: a text without tone
    marks and other punctuation, in which no period or comma is followed by
    a space and every colon follows a digit, comes back from the default
    tokenizer as its only token. *)
Theorem tokenizer_keeps_numbers_and_times (text : jsstring) :
  Forall (fun c => ~ In c (Symbols.TONE_MARKS ++ OTHER_PUNC)) text ->
  (forall q c, text !! q = Some c -> In c Symbols.PERIOD_COMMA ->
     text !! S q <> Some 32%N) ->
  (forall q, text !! q = Some 58%N ->
     exists p d, q = S p /\ text !! p = Some d /\ isDigit d = true) ->
  defaultTokenizerFunc text = [Some text].
Proof.
  intros Hpunc Hperiod Hcolon.
  unfold defaultTokenizerFunc, Tokenizer_run.
  apply split_no_match. intros q.
  rewrite defaultTokenizer_exec_spec. unfold exec_spec.
  assert (toneMarks_site text q = false) as ->.
  { unfold toneMarks_site, before. destruct q as [|p]; [done|].
    rewrite at_index_none; [done|].
    eapply List.Forall_impl; [|exact Hpunc]. intros c Hc. cbv beta in Hc.
    apply not_true_is_false. intros Hin%member_In.
    apply Hc, in_or_app. by left. }
  assert (periodComma_site text q = false) as ->.
  { unfold periodComma_site, at_index.
    destruct (text !! q) as [c|] eqn:Eq; [|by rewrite andb_false_r].
    destruct (member Symbols.PERIOD_COMMA c) eqn:Ec; [|by rewrite andb_false_r].
    apply member_In in Ec. specialize (Hperiod q c Eq Ec).
    destruct (text !! S q) as [c'|]; [|by rewrite andb_false_r].
    destruct (N.eqb_spec c' 32) as [->|]; [done|by rewrite andb_false_r]. }
  assert (colon_site text q = false) as ->.
  { unfold colon_site, at_index.
    destruct (text !! q) as [c|] eqn:Eq; [|by rewrite andb_false_r].
    destruct (N.eqb_spec c 58) as [->|]; [|by rewrite andb_false_r].
    destruct (Hcolon q Eq) as (p & d & -> & Hp & Hd).
    unfold before, at_index. by rewrite Hp, Hd. }
  assert (otherPunctuation_site text q = false) as ->; [|done].
  unfold otherPunctuation_site. apply at_index_none.
  eapply List.Forall_impl; [|exact Hpunc]. intros c Hc. cbv beta in Hc.
  apply not_true_is_false. intros Hin%member_In.
  apply Hc, in_or_app. by right.
Qed.

Lemma tokenizer_keeps_numbers_and_times_witness :
  defaultTokenizerFunc (str "3.5 at 10:15") = [Some (str "3.5 at 10:15")].
Proof.
  apply (tokenizer_keeps_numbers_and_times (str "3.5 at 10:15")).
  - repeat constructor; intros Hin; simpl in Hin; intuition discriminate.
  - intros q c Hq Hc.
    do 12 (destruct q as [|q];
           [simpl in *; injection Hq as <-; intuition discriminate|]).
    discriminate.
  - intros q Hq.
    do 12 (destruct q as [|q];
           [try discriminate; exists 8%nat, 48%N; by repeat split|]).
    discriminate.
Defined.

End TokenizerSites.
